(** * The command-pattern text editor of the design-patterns example

    A shallow embedding of [Document], [AddTextCommand], [RemoveTextCommand]
    and [DocumentEditor] (the "COMMAND PATTERN" block of the design-patterns
    example), and the properties of its undo/redo history.

    Modelling choices.
    - A JavaScript string is a finite sequence of UTF-16 code units.  The code
      never inspects a code unit, so the development is parametric in the type
      [codeunit]; a string is a [list codeunit].
    - A [Document] is a mutable object that the editor and every command share
      by reference.  Documents live in a store, a finite map from references
      to contents; a method that mutates a document updates the store.
    - The fields of a command are private and assigned once, in the
      constructor: a command object is an immutable value.
    - A [number] that is used as a length or an index is modelled as an
      integer ([Z]); fractional counts, NaN and the infinities are outside
      the model.
    - Calling a method on [undefined] throws a [TypeError]; the two editor
      methods that index the history return a [completion].

    The second half of the development covers the other patterns of the same
    example: the observer ([EventEmitter]), the singleton
    ([DatabaseConnection]), the payment strategies, the query builder, the
    chain of responsibility and [TypedEventEmitter].  Their strings are
    written with the literals of the source, over [ascii]; [console.log] and
    [console.error] append to a list of [output]s; a thrown [Error] is an
    [outcome]. *)

From Stdlib Require Import ZArith Lia Ascii String.
From stdpp Require Import base option list gmap strings.

Local Open Scope Z_scope.

(** ** [slice] *)

(** [String.prototype.slice(start, end)] and [Array.prototype.slice(start,
    end)] on integral arguments: a negative index counts from the end, both
    indices are clamped to [0 .. len], and an empty range gives the empty
    sequence.  ([-0] and [0] are the same integer, as [ToIntegerOrInfinity]
    makes them.) *)
Definition slice {A : Type} (s : list A) (start end_ : Z) : list A :=
  let len := Z.of_nat (length s) in
  let from := if start <? 0 then Z.max (len + start) 0 else Z.min start len in
  let to := if end_ <? 0 then Z.max (len + end_) 0 else Z.min end_ len in
  if from >=? to then [] else take (Z.to_nat (to - from)) (drop (Z.to_nat from) s).

(** [a[i]] for an array [a]: [undefined] (here [None]) outside [0 .. len-1]. *)
Definition index {A : Type} (a : list A) (i : Z) : option A :=
  if i <? 0 then None else a !! Z.to_nat i.

(** A reference to a [Document] object. *)
Abbreviation loc := nat (only parsing).

(** What a call leaves behind: it returns, or a [TypeError] propagates out of
    it; either way the state reached so far is kept. *)
Inductive completion (S : Type) : Type :=
  | Normal (st : S)
  | TypeError (st : S).
Arguments Normal {S} st.
Arguments TypeError {S} st.

Section Editor.

Context {codeunit : Type}.

Abbreviation str := (list codeunit) (only parsing).
Abbreviation heap := (gmap nat (list codeunit)) (only parsing).

(** ** class Document *)

(** [new Document()]: a fresh object whose [content] is ['']. *)
Definition new_Document (h : heap) : loc * heap :=
  let d := fresh (dom h) in (d, <[d := []]> h).

(** [getContent()].  A reference the store does not bind yet reads as [''],
    the content of a document nothing has written to. *)
Definition Document_getContent (d : loc) (h : heap) : str := h !!! d.

(** [addText(text)]: [this.content += text]. *)
Definition Document_addText (d : loc) (text : str) (h : heap) : heap :=
  <[d := Document_getContent d h ++ text]> h.

(** [removeText(length)]: [this.content = this.content.slice(0, -length)]. *)
Definition Document_removeText (d : loc) (length : Z) (h : heap) : heap :=
  <[d := slice (Document_getContent d h) 0 (- length)]> h.

(** [setContent(content)]. *)
Definition Document_setContent (d : loc) (content : str) (h : heap) : heap :=
  <[d := content]> h.

(** ** interface Command and its two classes *)

(** An object of class [AddTextCommand] or [RemoveTextCommand], with its
    three private fields. *)
Inductive Command : Type :=
  | AddTextCommand (document : loc) (text : str) (previousContent : str)
  | RemoveTextCommand (document : loc) (length : Z) (previousContent : str).

(** [new AddTextCommand(document, text)]: the constructor reads the document
    and keeps what it read in [previousContent]. *)
Definition new_AddTextCommand (document : loc) (text : str) (h : heap) : Command :=
  AddTextCommand document text (Document_getContent document h).

(** [new RemoveTextCommand(document, length)]. *)
Definition new_RemoveTextCommand (document : loc) (length : Z) (h : heap) : Command :=
  RemoveTextCommand document length (Document_getContent document h).

(** The [document] field of a command. *)
Definition Command_document (c : Command) : loc :=
  match c with
  | AddTextCommand d _ _ => d
  | RemoveTextCommand d _ _ => d
  end.

(** The [previousContent] field of a command. *)
Definition Command_previousContent (c : Command) : str :=
  match c with
  | AddTextCommand _ _ p => p
  | RemoveTextCommand _ _ p => p
  end.

(** [command.execute()], dispatched on the class of the object. *)
Definition Command_execute (c : Command) (h : heap) : heap :=
  match c with
  | AddTextCommand d text _ => Document_addText d text h
  | RemoveTextCommand d length _ => Document_removeText d length h
  end.

(** [command.undo()]: both classes write [previousContent] back. *)
Definition Command_undo (c : Command) (h : heap) : heap :=
  match c with
  | AddTextCommand d _ p => Document_setContent d p h
  | RemoveTextCommand d _ p => Document_setContent d p h
  end.

(** ** class DocumentEditor *)

Record DocumentEditor : Type := mkDocumentEditor {
  history : list Command;
  currentPosition : Z;
  document : loc
}.

(** [new DocumentEditor(document)]. *)
Definition new_DocumentEditor (d : loc) : DocumentEditor :=
  {| history := []; currentPosition := -1; document := d |}.

(** The state a call runs in: the store of documents and the editor. *)
Definition state : Type := gmap nat (list codeunit) * DocumentEditor.

(** [executeCommand(command)]. *)
Definition executeCommand (command : Command) (st : state) : state :=
  let '(h, e) := st in
  let history1 := slice (history e) 0 (currentPosition e + 1) in
  let h1 := Command_execute command h in
  (h1, {| history := history1 ++ [command];
          currentPosition := currentPosition e + 1;
          document := document e |}).

(** [undo()]. *)
Definition undo (st : state) : completion state :=
  let '(h, e) := st in
  if currentPosition e >=? 0 then
    match index (history e) (currentPosition e) with
    | Some command =>
        Normal (Command_undo command h,
                {| history := history e;
                   currentPosition := currentPosition e - 1;
                   document := document e |})
    | None => TypeError st
    end
  else Normal st.

(** [redo()].  The position is incremented before the history is indexed. *)
Definition redo (st : state) : completion state :=
  let '(h, e) := st in
  if currentPosition e <? Z.of_nat (length (history e)) - 1 then
    let e1 := {| history := history e;
                 currentPosition := currentPosition e + 1;
                 document := document e |} in
    match index (history e1) (currentPosition e1) with
    | Some command => Normal (Command_execute command h, e1)
    | None => TypeError (h, e1)
    end
  else Normal st.

(** [getContent()] of the editor: the content of the editor's own document. *)
Definition getContent (st : state) : str :=
  Document_getContent (document (snd st)) (fst st).

(** ** Sequences of calls *)

(** A call a client makes on the editor. *)
Inductive call : Type :=
  | ExecuteCommand (command : Command)
  | Undo
  | Redo.

Definition step (c : call) (st : state) : completion state :=
  match c with
  | ExecuteCommand command => Normal (executeCommand command st)
  | Undo => undo st
  | Redo => redo st
  end.

(** The calls of a list, one after the other; an exception ends the run. *)
Fixpoint run (cs : list call) (st : state) : completion state :=
  match cs with
  | [] => Normal st
  | c :: cs' =>
      match step c st with
      | Normal st' => run cs' st'
      | TypeError st' => TypeError st'
      end
  end.

(** [-1 <= position <= history.length - 1]. *)
Definition position_in_range (e : DocumentEditor) : Prop :=
  -1 <= currentPosition e <= Z.of_nat (length (history e)) - 1.

(** ** Editing operations, as the specification words them *)

Inductive operation : Type :=
  | Append (text : str)
  | Remove (count : Z).

(** The specification's reading of one operation on a buffer: append
    concatenates the text; remove drops the last [count] characters and
    stops at the empty buffer. *)
Definition spec_apply (buffer : str) (op : operation) : str :=
  match op with
  | Append text => buffer ++ text
  | Remove count => take (Z.to_nat (Z.of_nat (length buffer) - count)) buffer
  end.

(** The left-to-right fold of [spec_apply] over a buffer. *)
Definition spec_fold (ops : list operation) (buffer : str) : str :=
  foldl spec_apply buffer ops.

(** Every remove of the list takes at least one character. *)
Definition positive_counts (ops : list operation) : Prop :=
  Forall (λ op, match op with Append _ => True | Remove count => 1 <= count end) ops.

(** The command that wraps an operation on document [d], constructed in
    store [h]. *)
Definition wrap (d : loc) (op : operation) (h : heap) : Command :=
  match op with
  | Append text => new_AddTextCommand d text h
  | Remove count => new_RemoveTextCommand d count h
  end.

(** Each operation is wrapped as a command on the editor's document, right
    before it goes to [executeCommand]. *)
Fixpoint drive (ops : list operation) (st : state) : state :=
  match ops with
  | [] => st
  | op :: ops' =>
      drive ops' (executeCommand (wrap (document (snd st)) op (fst st)) st)
  end.

End Editor.

Arguments Command : clear implicits.
Arguments DocumentEditor : clear implicits.
Arguments state : clear implicits.
Arguments call : clear implicits.
Arguments operation : clear implicits.

(** ** The strings of the examples *)

(** A string literal of the example script, code unit by code unit (the
    literals there are ASCII). *)
Definition js (s : String.string) : list Ascii.ascii :=
  String.list_ascii_of_string s.
Arguments js s%_string.

(** ** Editing sessions *)

Section Sessions.

Context {codeunit : Type}.

(** The content [addText] and [removeText] leave in a document, as a
    function of the content they find there. *)
Definition Document_apply (content : list codeunit) (op : operation codeunit)
  : list codeunit :=
  match op with
  | Append text => content ++ text
  | Remove length => slice content 0 (- length)
  end.

(** The operation a command carries out when it is executed. *)
Definition Command_operation (c : Command codeunit) : operation codeunit :=
  match c with
  | AddTextCommand _ text _ => Append text
  | RemoveTextCommand _ length _ => Remove length
  end.

(** The commands of a history executed in order on [content]. *)
Definition replay (content : list codeunit) (cs : list (Command codeunit))
  : list codeunit :=
  foldl Document_apply content (Command_operation <$> cs).

(** The commands of the history that are applied: indices [0 .. position]. *)
Definition applied (e : DocumentEditor codeunit) : list (Command codeunit) :=
  take (Z.to_nat (currentPosition e + 1)) (history e).

(** What a user of the editor asks for: an edit, for which the client
    constructs a command on the editor's document and hands it to
    [executeCommand] at once, or an undo, or a redo. *)
Inductive request : Type :=
  | Edit (op : operation codeunit)
  | UndoLast
  | RedoNext.

Definition serve (r : request) (st : state codeunit) : completion (state codeunit) :=
  match r with
  | Edit op => Normal (executeCommand (wrap (document (snd st)) op (fst st)) st)
  | UndoLast => undo st
  | RedoNext => redo st
  end.

(** The requests of a list, one after the other; an exception ends the
    session. *)
Fixpoint session (rs : list request) (st : state codeunit)
  : completion (state codeunit) :=
  match rs with
  | [] => Normal st
  | r :: rs' =>
      match serve r st with
      | Normal st' => session rs' st'
      | TypeError st' => TypeError st'
      end
  end.

(** A state is coherent with the content [initial] the editor's document
    started with: the position is in range, every command of the history
    works on the editor's document and holds as its snapshot the replay of
    the commands before it, and the document holds the replay of the applied
    commands. *)
Definition coherent (initial : list codeunit) (st : state codeunit) : Prop :=
  position_in_range (snd st)
  ∧ Forall (λ c, Command_document c = document (snd st)) (history (snd st))
  ∧ (∀ (i : nat) c, history (snd st) !! i = Some c →
       Command_previousContent c = replay initial (take i (history (snd st))))
  ∧ getContent st = replay initial (applied (snd st)).

End Sessions.

Arguments request : clear implicits.

(** * The other patterns of the example *)

(** ** Arrays *)

Section Arrays.

Context {A : Type} `{EqDecision A}.

(** [Array.prototype.includes(x)] on an array of object references or of
    strings, where SameValueZero is equality. *)
Definition includes (a : list A) (x : A) : bool := bool_decide (x ∈ a).

(** The search of [Array.prototype.indexOf(x)], from index [i] on: the index
    of the first element equal to [x], or -1. *)
Fixpoint indexOf_from (a : list A) (x : A) (i : Z) : Z :=
  match a with
  | [] => -1
  | y :: a' => if decide (y = x) then i else indexOf_from a' x (i + 1)
  end.

Definition indexOf (a : list A) (x : A) : Z := indexOf_from a x 0.

(** The array [Array.prototype.splice(start, deleteCount)] leaves behind, on
    integral arguments: a negative [start] counts from the end, [start] is
    clamped to [0 .. len] and [deleteCount] to [0 .. len - start]. *)
Definition splice (a : list A) (start deleteCount : Z) : list A :=
  let len := Z.of_nat (length a) in
  let actualStart := if start <? 0 then Z.max (len + start) 0 else Z.min start len in
  let actualDeleteCount := Z.min (Z.max deleteCount 0) (len - actualStart) in
  take (Z.to_nat actualStart) a ++ drop (Z.to_nat (actualStart + actualDeleteCount)) a.

End Arrays.

(** ** class EventEmitter *)

Section Observer.

(** An observer is an object, known by its reference; [W] is whatever the
    [update] methods of the observers act on.  The observers of the example
    ([AnalyticsService], [NotificationService]) write to the console and do
    not touch the emitter that notifies them; [update] is such a method. *)
Context {Obs : Type} `{EqDecision Obs} {T W : Type}.
Variable update : Obs → T → W → W.

(** [attach(observer)], on the [observers] array. *)
Definition EventEmitter_attach (observer : Obs) (observers : list Obs) : list Obs :=
  if negb (includes observers observer) then observers ++ [observer] else observers.

(** [detach(observer)]. *)
Definition EventEmitter_detach (observer : Obs) (observers : list Obs) : list Obs :=
  let index := indexOf observers observer in
  if index >? -1 then splice observers index 1 else observers.


(** A call on the subject's registration interface. *)
Inductive registration : Type :=
  | Attach (observer : Obs)
  | Detach (observer : Obs).

Definition register (r : registration) (observers : list Obs) : list Obs :=
  match r with
  | Attach observer => EventEmitter_attach observer observers
  | Detach observer => EventEmitter_detach observer observers
  end.

(** The array after a list of registrations on a new emitter's [[]], first
    call first. *)
Definition registrations (rs : list registration) : list Obs :=
  foldl (λ observers r, register r observers) [] rs.

End Observer.

Arguments registration : clear implicits.

(** ** The console and exceptions *)

(** A call of [console.log] or [console.error], with the strings it was
    given. *)
Inductive output : Type :=
  | console_log (args : list (list ascii))
  | console_error (args : list (list ascii)).

(** [new Error(message)]. *)
Record Error : Type := mkError { message : list ascii }.

(** How a call ends: it returns a value or it throws an [Error]; [out] is
    the console when it ends. *)
Inductive outcome (A : Type) : Type :=
  | Return (a : A) (out : list output)
  | Throw (e : Error) (out : list output).
Arguments Return {A} a out.
Arguments Throw {A} e out.

(** [String.prototype.includes(searchString)]: [searchString] occurs in [s]
    at some position. *)
Fixpoint String_includes (s searchString : list ascii) : bool :=
  bool_decide (searchString `prefix_of` s)
  || match s with
     | [] => false
     | _ :: s' => String_includes s' searchString
     end.

(** [Array.prototype.join(separator)] on an array of strings. *)
Fixpoint join (separator : list ascii) (a : list (list ascii)) : list ascii :=
  match a with
  | [] => []
  | [x] => x
  | x :: a' => x ++ separator ++ join separator a'
  end.

(** ** class DatabaseConnection (singleton) *)

(** The fields of the one object of the class. *)
Record DatabaseConnection : Type := mkDatabaseConnection {
  connectionString : list ascii;
  isConnected : bool
}.

(** [!connectionString] for an optional string: [undefined] and [''] are
    both falsy. *)
Definition missing (connectionString : option (list ascii)) : bool :=
  match connectionString with
  | None | Some [] => true
  | Some (_ :: _) => false
  end.

(** [DatabaseConnection.getInstance(connectionString?)].  The state is the
    static field [instance], [None] while it is [undefined]; the constructor
    is private, so the object in that field is the only one of the class, and
    the reference the call returns is a reference to it. *)
Definition DatabaseConnection_getInstance
    (connectionString : option (list ascii))
    (instance : option DatabaseConnection) (out : list output)
  : outcome (option DatabaseConnection) :=
  match instance with
  | Some _ => Return instance out
  | None =>
      if missing connectionString
      then Throw (mkError (js "Connection string required for first instance")) out
      else Return (Some {| connectionString := default [] connectionString;
                           isConnected := false |}) out
  end.

(** [connect()]. *)
Definition DatabaseConnection_connect (this : DatabaseConnection) (out : list output)
  : DatabaseConnection * list output :=
  if negb (isConnected this)
  then ({| connectionString := connectionString this; isConnected := true |},
        out ++ [console_log [js "Connecting to database: " ++ connectionString this]])
  else (this, out).

(** [disconnect()]. *)
Definition DatabaseConnection_disconnect (this : DatabaseConnection) (out : list output)
  : DatabaseConnection * list output :=
  if isConnected this
  then ({| connectionString := connectionString this; isConnected := false |},
        out ++ [console_log [js "Disconnecting from database"]])
  else (this, out).

(** [query(sql)]; the mock result is the empty array, of rows of any type
    [row]. *)
Definition DatabaseConnection_query {row : Type} (sql : list ascii)
    (this : DatabaseConnection) (out : list output) : outcome (list row) :=
  if negb (isConnected this)
  then Throw (mkError (js "Database not connected")) out
  else Return [] (out ++ [console_log [js "Executing query: " ++ sql]]).

(** ** Payment strategies *)

Section Payments.

(** An amount is a [number] that only ever goes into a template literal;
    [Number_toString] is how the language writes it there. *)
Context {number : Type}.
Variable Number_toString : number → list ascii.

(** An object of one of the three classes that implement
    [PaymentStrategy], with its private fields. *)
Inductive PaymentStrategy : Type :=
  | CreditCardPayment (cardNumber cvv : list ascii)
  | PayPalPayment (email : list ascii)
  | BankTransferPayment (accountNumber routingNumber : list ascii).

(** [validate()]. *)
Definition PaymentStrategy_validate (this : PaymentStrategy) : bool :=
  match this with
  | CreditCardPayment cardNumber cvv =>
      (Z.of_nat (length cardNumber) =? 16) && (Z.of_nat (length cvv) =? 3)
  | PayPalPayment email => String_includes email (js "@")
  | BankTransferPayment accountNumber routingNumber =>
      (Z.of_nat (length accountNumber) >=? 8) && (Z.of_nat (length routingNumber) =? 9)
  end.

(** [pay(amount)].  [cardNumber.slice(-4)] has no end index, which stands
    for the length of the string. *)
Definition PaymentStrategy_pay (this : PaymentStrategy) (amount : number)
    (out : list output) : outcome unit :=
  match this with
  | CreditCardPayment cardNumber cvv =>
      if PaymentStrategy_validate this
      then Return tt (out ++ [console_log
             [js "Paid $" ++ Number_toString amount
              ++ js " using Credit Card ending in "
              ++ slice cardNumber (-4) (Z.of_nat (length cardNumber))]])
      else Throw (mkError (js "Invalid credit card information")) out
  | PayPalPayment email =>
      if PaymentStrategy_validate this
      then Return tt (out ++ [console_log
             [js "Paid $" ++ Number_toString amount
              ++ js " using PayPal account " ++ email]])
      else Throw (mkError (js "Invalid PayPal email")) out
  | BankTransferPayment accountNumber routingNumber =>
      if PaymentStrategy_validate this
      then Return tt (out ++ [console_log
             [js "Paid $" ++ Number_toString amount
              ++ js " using Bank Transfer from account " ++ accountNumber]])
      else Throw (mkError (js "Invalid bank account information")) out
  end.

(** [class PaymentProcessor]: its one field. *)
Record PaymentProcessor : Type := mkPaymentProcessor {
  strategy : PaymentStrategy
}.

(** [setStrategy(strategy)]. *)
Definition PaymentProcessor_setStrategy (s : PaymentStrategy) (this : PaymentProcessor)
  : PaymentProcessor :=
  {| strategy := s |}.


End Payments.

(** ** class QueryBuilder *)

Section Builder.

(** [Number_toString] is how a template literal writes a number. *)
Variable Number_toString : Z → list ascii.

Record QueryBuilder : Type := mkQueryBuilder {
  query : list ascii;
  conditions : list (list ascii);
  orderBy : list ascii;
  limitValue : Z
}.

(** [new QueryBuilder()]. *)
Definition new_QueryBuilder : QueryBuilder :=
  {| query := []; conditions := []; orderBy := []; limitValue := 0 |}.

(** The argument of [select]: [string | string[]]. *)
Inductive columns : Type :=
  | column (name : list ascii)
  | column_array (names : list (list ascii)).

(** The methods change the builder and return [this]; here each returns the
    builder as it then is. *)

(** [select(columns)]. *)
Definition QueryBuilder_select (cs : columns) (this : QueryBuilder) : QueryBuilder :=
  let cols := match cs with
              | column_array names => join (js ", ") names
              | column name => name
              end in
  {| query := js "SELECT " ++ cols; conditions := conditions this;
     orderBy := orderBy this; limitValue := limitValue this |}.

(** [from(table)]. *)
Definition QueryBuilder_from (table : list ascii) (this : QueryBuilder) : QueryBuilder :=
  {| query := query this ++ js " FROM " ++ table; conditions := conditions this;
     orderBy := orderBy this; limitValue := limitValue this |}.

(** [where(condition)]. *)
Definition QueryBuilder_where (condition : list ascii) (this : QueryBuilder) : QueryBuilder :=
  {| query := query this; conditions := conditions this ++ [condition];
     orderBy := orderBy this; limitValue := limitValue this |}.

(** ['ASC' | 'DESC']. *)
Inductive direction : Type := ASC | DESC.

Definition direction_string (d : direction) : list ascii :=
  match d with ASC => js "ASC" | DESC => js "DESC" end.

(** [orderByColumn(column, direction = 'ASC')]; [None] is a call without the
    second argument. *)
Definition QueryBuilder_orderByColumn (col : list ascii) (d : option direction)
    (this : QueryBuilder) : QueryBuilder :=
  {| query := query this; conditions := conditions this;
     orderBy := js " ORDER BY " ++ col ++ js " " ++ direction_string (default ASC d);
     limitValue := limitValue this |}.

(** [limit(count)]. *)
Definition QueryBuilder_limit (count : Z) (this : QueryBuilder) : QueryBuilder :=
  {| query := query this; conditions := conditions this;
     orderBy := orderBy this; limitValue := count |}.

(** [build()].  [if (this.orderBy)] holds for every string but the empty
    one. *)
Definition QueryBuilder_build (this : QueryBuilder) : list ascii :=
  let finalQuery := query this in
  let finalQuery :=
    if Z.of_nat (length (conditions this)) >? 0
    then finalQuery ++ js " WHERE " ++ join (js " AND ") (conditions this)
    else finalQuery in
  let finalQuery :=
    if negb (bool_decide (orderBy this = []))
    then finalQuery ++ orderBy this
    else finalQuery in
  let finalQuery :=
    if limitValue this >? 0
    then finalQuery ++ js " LIMIT " ++ Number_toString (limitValue this)
    else finalQuery in
  finalQuery.

(** [where] called once for each condition of a list, in order. *)
Definition QueryBuilder_where_all (cs : list (list ascii)) (this : QueryBuilder)
  : QueryBuilder :=
  foldl (λ b condition, QueryBuilder_where condition b) this cs.

End Builder.

(** ** Chain of responsibility *)

(** [interface AuthRequest]. *)
Record AuthRequest : Type := mkAuthRequest {
  token : list ascii;
  permissions : list (list ascii)
}.

(** The three classes that extend [Handler], with the field a
    [PermissionHandler] has of its own. *)
Inductive HandlerClass : Type :=
  | TokenValidationHandler
  | PermissionHandler (requiredPermission : list ascii)
  | LoggingHandler.

(** A handler object: its class and its [next] field ([None] is [null]). *)
Record Handler : Type := mkHandler {
  class : HandlerClass;
  next : option nat
}.

(** [new TokenValidationHandler()] and the like: [next] starts as [null]. *)
Definition new_Handler (c : HandlerClass) : Handler := {| class := c; next := None |}.

(** [setNext(handler)] on the object at [this], in the store of handler
    objects; it returns [handler]. *)
Definition Handler_setNext (this handler : nat) (hs : gmap nat Handler)
  : gmap nat Handler * nat :=
  (alter (λ o, {| class := class o; next := Some handler |}) this hs, handler).

(** [canHandle(request)] of each class; [!!request.token] holds for every
    string but the empty one. *)
Definition Handler_canHandle (c : HandlerClass) (request : AuthRequest) : bool :=
  match c with
  | TokenValidationHandler => negb (bool_decide (token request = []))
  | PermissionHandler _ => Z.of_nat (length (permissions request)) >? 0
  | LoggingHandler => true
  end.

(** [process(request)] of each class. *)
Definition Handler_process (c : HandlerClass) (request : AuthRequest)
    (out : list output) : outcome AuthRequest :=
  match c with
  | TokenValidationHandler =>
      let out := out ++ [console_log [js "Validating token..."]] in
      if bool_decide (token request = js "invalid")
      then Throw (mkError (js "Invalid token")) out
      else Return request (out ++ [console_log [js "Token validated"]])
  | PermissionHandler requiredPermission =>
      let out := out ++ [console_log [js "Checking permission: " ++ requiredPermission]] in
      if negb (includes (permissions request) requiredPermission)
      then Throw (mkError (js "Missing permission: " ++ requiredPermission)) out
      else Return request (out ++ [console_log [js "Permission granted"]])
  | LoggingHandler =>
      Return request
        (out ++ [console_log [js "Logging request..."];
                 console_log [js "User authorized with permissions: "
                              ++ join (js ", ") (permissions request)]])
  end.

(** [handle(request)] on the object at [this].  The recursion follows the
    [next] fields, which can form a cycle: [fuel] bounds the number of
    handlers visited, and [None] is a chain that needs more. *)
Fixpoint Handler_handle (fuel : nat) (hs : gmap nat Handler) (this : nat)
    (request : AuthRequest) (out : list output) : option (outcome AuthRequest) :=
  match fuel with
  | O => None
  | S fuel' =>
      match hs !! this with
      | None => None
      | Some h =>
          if Handler_canHandle (class h) request
          then Some (Handler_process (class h) request out)
          else match next h with
               | Some n => Handler_handle fuel' hs n request out
               | None => Some (Throw (mkError (js "No handler can process this request")) out)
               end
      end
  end.

(** The classes of the handlers from [this] along the [next] fields, down
    to the one whose [next] is [null]. *)
Inductive chain (hs : gmap nat Handler) : nat → list HandlerClass → Prop :=
  | chain_last this c :
      hs !! this = Some {| class := c; next := None |} →
      chain hs this [c]
  | chain_next this c n cs :
      hs !! this = Some {| class := c; next := Some n |} →
      chain hs n cs →
      chain hs this (c :: cs).

(** What the first handler of a list that can handle the request makes of
    it; the error of [handle] when there is none. *)
Fixpoint first_capable (cs : list HandlerClass) (request : AuthRequest)
    (out : list output) : outcome AuthRequest :=
  match cs with
  | [] => Throw (mkError (js "No handler can process this request")) out
  | c :: cs' =>
      if Handler_canHandle c request then Handler_process c request out
      else first_capable cs' request out
  end.

(** The chain of the example: three new handlers at the references [t], [p]
    and [l], linked by [tokenHandler.setNext(permissionHandler)
    .setNext(loggingHandler)]. *)
Definition example_chain (t p l : nat) (requiredPermission : list ascii)
  : gmap nat Handler :=
  let hs := <[l := new_Handler LoggingHandler]>
              (<[p := new_Handler (PermissionHandler requiredPermission)]>
                 (<[t := new_Handler TokenValidationHandler]> ∅)) in
  let '(hs, r) := Handler_setNext t p hs in
  let '(hs, _) := Handler_setNext r l hs in
  hs.

(** ** class TypedEventEmitter *)

Section TypedEmitter.

(** [K] is the type of event names, [L] of references to listener
    functions; [W] is whatever the listeners act on when they are called
    with arguments [Args] (the listeners of the example write to the console
    and do not touch the emitter). *)
Context `{Countable K} {L : Type} `{EqDecision L} {Args W : Type}.

(** The [listeners] object is created by [{}]: besides its own properties
    it has those of [Object.prototype] ([toString], [constructor], ...).
    [inherited event] says that [Object.prototype] has a property of that
    name; its value is then a function or an object, which is truthy and has
    no [push], [forEach] or [indexOf]. *)
Variable inherited : K → bool.

(** A call of a listener. *)
Variable call : L → Args → W → W.

(** What [this.listeners[event]] evaluates to. *)
Inductive property : Type :=
  | own_array (a : list L)
  | of_prototype
  | undefined.

Definition get_listeners (listeners : gmap K (list L)) (event : K) : property :=
  match listeners !! event with
  | Some a => own_array a
  | None => if inherited event then of_prototype else undefined
  end.

(** [on(event, listener)]. *)
Definition TypedEventEmitter_on (event : K) (listener : L)
    (listeners : gmap K (list L)) : completion (gmap K (list L)) :=
  match get_listeners listeners event with
  | undefined => Normal (<[event := [] ++ [listener]]> listeners)
  | own_array a => Normal (<[event := a ++ [listener]]> listeners)
  | of_prototype => TypeError listeners
  end.



(** How many times [listener] is registered for [event]. *)
Definition registered (listeners : gmap K (list L)) (event : K) (listener : L) : nat :=
  length (filter (λ x, x = listener) (default [] (listeners !! event))).

End TypedEmitter.

(** * Properties *)

(** ** Slicing from the start *)

Section SliceFacts.

Context {A : Type}.
Implicit Types s : list A.

Lemma take_clamp s (n : Z) :
  take (Z.to_nat (Z.min n (Z.of_nat (length s)))) s = take (Z.to_nat n) s.
Proof.
  destruct (Z.le_gt_cases n (Z.of_nat (length s))) as [Hle | Hgt].
  - by rewrite Z.min_l.
  - rewrite Z.min_r by lia. rewrite Nat2Z.id.
    rewrite !take_ge; [done | lia | lia].
Qed.

(** [s.slice(0, n)] for [n >= 0] is the prefix of length [n] (all of [s] when
    [n] exceeds its length). *)
Lemma slice_prefix s (n : Z) : 0 <= n → slice s 0 n = take (Z.to_nat n) s.
Proof.
  intros Hn. unfold slice.
  replace (0 <? 0) with false by done.
  replace (n <? 0) with false by (symmetry; apply Z.ltb_ge; lia).
  rewrite Z.min_l by lia.
  destruct (Z.geb_spec 0 (Z.min n (Z.of_nat (length s)))) as [Hge | Hlt].
  - assert (Z.to_nat (Z.min n (Z.of_nat (length s))) = 0%nat) as H0 by lia.
    by rewrite <- take_clamp, H0.
  - rewrite Z.sub_0_r. simpl. apply take_clamp.
Qed.

(** [s.slice(0, -k)] for [k >= 1] drops the last [k] elements, and stops at
    the empty sequence. *)
Lemma slice_drop_last s (k : Z) :
  1 <= k → slice s 0 (- k) = take (Z.to_nat (Z.of_nat (length s) - k)) s.
Proof.
  intros Hk. unfold slice.
  replace (0 <? 0) with false by done.
  replace (- k <? 0) with true by (symmetry; apply Z.ltb_lt; lia).
  rewrite Z.min_l by lia.
  destruct (Z.geb_spec 0 (Z.max (Z.of_nat (length s) + - k) 0)) as [Hge | Hlt].
  - replace (Z.to_nat (Z.of_nat (length s) - k)) with 0%nat by lia. done.
  - rewrite Z.sub_0_r. simpl. f_equal. lia.
Qed.

(** [s.slice(0, -0)] is [s.slice(0, 0)]: nothing is kept. *)
Lemma slice_0_0 s : slice s 0 (- 0) = [].
Proof. by rewrite slice_prefix. Qed.

Lemma index_snoc (a : list A) x : index (a ++ [x]) (Z.of_nat (length a)) = Some x.
Proof.
  unfold index.
  replace (Z.of_nat (length a) <? 0) with false by (symmetry; apply Z.ltb_ge; lia).
  rewrite Nat2Z.id. by rewrite list_lookup_middle.
Qed.

End SliceFacts.

Section EditorFacts.

Context {codeunit : Type}.
Implicit Types h : gmap nat (list codeunit).
Implicit Types c command : Command codeunit.
Implicit Types e : DocumentEditor codeunit.
Implicit Types st : state codeunit.
Implicit Types d : nat.

(** ** Documents *)

Lemma getContent_setContent d d' content h :
  Document_getContent d' (Document_setContent d content h)
  = if decide (d = d') then content else Document_getContent d' h.
Proof. unfold Document_getContent, Document_setContent. apply lookup_total_insert. Qed.

Lemma getContent_addText d text h :
  Document_getContent d (Document_addText d text h) = Document_getContent d h ++ text.
Proof. unfold Document_getContent, Document_addText. apply lookup_total_insert_eq. Qed.

Lemma getContent_removeText d n h :
  Document_getContent d (Document_removeText d n h)
  = slice (Document_getContent d h) 0 (- n).
Proof. unfold Document_getContent, Document_removeText. apply lookup_total_insert_eq. Qed.

(** From one character up, [removeText] is the specification's remove:
    it drops the last [n] characters and stops at the empty buffer. *)
Lemma removeText_positive d n h :
  1 <= n →
  Document_getContent d (Document_removeText d n h)
  = spec_apply (Document_getContent d h) (Remove n).
Proof. intros Hn. rewrite getContent_removeText. by apply slice_drop_last. Qed.

(** Removing at least as many characters as there are leaves [''];
    in particular on a buffer that is already empty. *)
Lemma removeText_all d n h :
  1 <= n → Z.of_nat (length (Document_getContent d h)) <= n →
  Document_getContent d (Document_removeText d n h) = [].
Proof.
  intros Hn Hlen. rewrite removeText_positive by done. simpl.
  replace (Z.to_nat _) with 0%nat by lia. done.
Qed.

(** ** Commands *)

(** A command writes to its own document only. *)
Lemma execute_other c d h :
  d ≠ Command_document c →
  Document_getContent d (Command_execute c h) = Document_getContent d h.
Proof.
  intros Hd. destruct c; simpl in *;
    unfold Document_addText, Document_removeText, Document_getContent;
    by rewrite lookup_total_insert_ne.
Qed.

Lemma undo_spec c h :
  Command_undo c h
  = Document_setContent (Command_document c) (Command_previousContent c) h.
Proof. by destruct c. Qed.

(** What [execute] writes depends on the store only through the content of
    the command's document. *)
Lemma execute_after_write c h h' :
  Document_getContent (Command_document c) h' = Document_getContent (Command_document c) h →
  (∃ content, h' = <[Command_document c := content]> h) →
  Command_execute c h' = Command_execute c h.
Proof.
  intros Heq [content ->]. destruct c; simpl in *;
    unfold Document_addText, Document_removeText; rewrite Heq;
    apply insert_insert_eq.
Qed.

(** ** The editor *)

(** With the position in range, [executeCommand] keeps the applied prefix of
    the history and puts the command right after it. *)
Lemma executeCommand_in_range command h e :
  position_in_range e →
  executeCommand command (h, e)
  = (Command_execute command h,
     {| history := take (Z.to_nat (currentPosition e + 1)) (history e) ++ [command];
        currentPosition := currentPosition e + 1;
        document := document e |}).
Proof.
  intros [Hlo Hhi]. unfold executeCommand. by rewrite slice_prefix by lia.
Qed.

Lemma executeCommand_position_in_range command st :
  position_in_range (snd st) → position_in_range (snd (executeCommand command st)).
Proof.
  destruct st as [h e]. intros Hr. simpl in Hr. rewrite executeCommand_in_range by done.
  destruct Hr as [Hlo Hhi]. unfold position_in_range. simpl.
  rewrite length_app, length_take. simpl. lia.
Qed.

Lemma undo_position_in_range st :
  position_in_range (snd st) →
  ∃ st', undo st = Normal st' ∧ position_in_range (snd st').
Proof.
  destruct st as [h e]. intros Hr. simpl in Hr. destruct Hr as [Hlo Hhi]. unfold undo.
  destruct (Z.geb_spec (currentPosition e) 0) as [Hge | Hlt].
  - unfold index.
    replace (currentPosition e <? 0) with false by (symmetry; apply Z.ltb_ge; lia).
    destruct (lookup_lt_is_Some_2 (history e) (Z.to_nat (currentPosition e))) as [command Hc];
      [lia |].
    rewrite Hc. eexists. split; [done |].
    unfold position_in_range. simpl. lia.
  - eexists. split; [done |]. by split.
Qed.

Lemma redo_position_in_range st :
  position_in_range (snd st) →
  ∃ st', redo st = Normal st' ∧ position_in_range (snd st').
Proof.
  destruct st as [h e]. intros Hr. simpl in Hr. destruct Hr as [Hlo Hhi]. unfold redo.
  destruct (Z.ltb_spec (currentPosition e) (Z.of_nat (length (history e)) - 1)) as [Hlt | Hge].
  - unfold index. simpl.
    replace (currentPosition e + 1 <? 0) with false by (symmetry; apply Z.ltb_ge; lia).
    destruct (lookup_lt_is_Some_2 (history e) (Z.to_nat (currentPosition e + 1))) as [command Hc];
      [lia |].
    rewrite Hc. eexists. split; [done |].
    unfold position_in_range. simpl. lia.
  - eexists. split; [done |]. by split.
Qed.

Lemma step_position_in_range (k : call codeunit) st :
  position_in_range (snd st) →
  ∃ st', step k st = Normal st' ∧ position_in_range (snd st').
Proof.
  intros Hr. destruct k as [command | |]; simpl.
  - eexists. split; [done |]. by apply executeCommand_position_in_range.
  - by apply undo_position_in_range.
  - by apply redo_position_in_range.
Qed.

Lemma run_position_in_range (ks : list (call codeunit)) st :
  position_in_range (snd st) →
  ∃ st', run ks st = Normal st' ∧ position_in_range (snd st').
Proof.
  revert st. induction ks as [| k ks IH]; intros st Hr; simpl.
  - by exists st.
  - destruct (step_position_in_range k st Hr) as (st1 & -> & Hr1).
    by apply IH.
Qed.

Lemma execute_is_write c h :
  ∃ content, Command_execute c h = <[Command_document c := content]> h.
Proof. destruct c; simpl; by eexists. Qed.

(** Executing again after the snapshot is back gives what executing gave,
    when the snapshot is the content the command first ran on. *)
Lemma execute_undo_execute c h :
  Command_previousContent c = Document_getContent (Command_document c) h →
  Command_execute c (Command_undo c (Command_execute c h)) = Command_execute c h.
Proof.
  intros Hsnap. rewrite undo_spec. unfold Document_setContent.
  assert (<[Command_document c := Command_previousContent c]> (Command_execute c h)
          = <[Command_document c := Command_previousContent c]> h) as ->.
  { destruct (execute_is_write c h) as [content ->]. apply insert_insert_eq. }
  apply execute_after_write; [| by eexists].
  unfold Document_getContent in *. by rewrite lookup_total_insert_eq.
Qed.

(** The command [executeCommand] has just pushed is the one at the new
    position. *)
Lemma index_pushed command e :
  position_in_range e →
  index (take (Z.to_nat (currentPosition e + 1)) (history e) ++ [command])
        (currentPosition e + 1) = Some command.
Proof.
  intros [Hlo Hhi].
  set (applied := take (Z.to_nat (currentPosition e + 1)) (history e)).
  assert (currentPosition e + 1 = Z.of_nat (length applied)) as ->.
  { unfold applied. rewrite length_take. lia. }
  apply index_snoc.
Qed.

(** [executeCommand] and then [undo]: the undo returns, runs the [undo] of
    the command just executed and steps the position back. *)
Lemma undo_executeCommand command h e :
  position_in_range e →
  undo (executeCommand command (h, e))
  = Normal (Command_undo command (Command_execute command h),
            {| history := take (Z.to_nat (currentPosition e + 1)) (history e) ++ [command];
               currentPosition := currentPosition e;
               document := document e |}).
Proof.
  intros Hr. rewrite executeCommand_in_range by done.
  unfold undo. cbn [currentPosition history document].
  replace (currentPosition e + 1 >=? 0) with true
    by (symmetry; apply Z.geb_le; destruct Hr; lia).
  rewrite index_pushed by done. do 3 f_equal. lia.
Qed.

End EditorFacts.

(** * The claims *)

Section Claims.

Context {codeunit : Type}.
Implicit Types h : gmap nat (list codeunit).
Implicit Types c : Command codeunit.
Implicit Types e : DocumentEditor codeunit.
Implicit Types d : nat.

(** C1, amended.  Take an editor whose position is in range and a command
    whose snapshot is the content its document has now (the command was
    constructed on this content and nothing wrote to the document since).
    Then [executeCommand] followed by [undo] returns normally, every document
    reads as it did before the [executeCommand], and the position is back
    where it was. *)
Theorem execute_then_undo_restores h e c :
  position_in_range e →
  Command_previousContent c = Document_getContent (Command_document c) h →
  ∃ st', undo (executeCommand c (h, e)) = Normal st'
       ∧ fst st' = Command_undo c (Command_execute c h)
       ∧ (∀ d, Document_getContent d (fst st') = Document_getContent d h)
       ∧ currentPosition (snd st') = currentPosition e.
Proof.
  intros Hr Hsnap. rewrite undo_executeCommand by done.
  eexists. split; [done |]. cbn [fst snd currentPosition].
  split; [done |]. split; [| done].
  intros d. rewrite undo_spec, getContent_setContent.
  case_decide as Hd.
  - by subst d.
  - by apply execute_other.
Qed.

(** C3.  With history [[c1; c2]] and position 1, [undo] returns and leaves
    the position at 0; [executeCommand c3] then leaves the history
    [[c1; c3]] and the position 1; a [redo] after that returns and changes
    nothing, so [c2] is not executed again. *)
Theorem new_command_discards_redo_branch h d (c1 c2 c3 : Command codeunit) :
  let st0 := (h, {| history := [c1; c2]; currentPosition := 1; document := d |}) in
  let st1 := (Command_undo c2 h,
              {| history := [c1; c2]; currentPosition := 0; document := d |}) in
  let st2 := (Command_execute c3 (Command_undo c2 h),
              {| history := [c1; c3]; currentPosition := 1; document := d |}) in
  undo st0 = Normal st1 ∧ executeCommand c3 st1 = st2 ∧ redo st2 = Normal st2.
Proof. done. Qed.

(** C4.  [undo] at position -1 and [redo] at position [history.length - 1]
    return normally and leave the store of documents and the editor as they
    were, whatever the history holds. *)
Theorem boundary_calls_change_nothing h (hist : list (Command codeunit)) d :
  let lowest := (h, {| history := hist; currentPosition := -1; document := d |}) in
  let newest := (h, {| history := hist;
                       currentPosition := Z.of_nat (length hist) - 1;
                       document := d |}) in
  undo lowest = Normal lowest ∧ redo newest = Normal newest.
Proof.
  split; [done |]. unfold redo. cbn [currentPosition history].
  by rewrite Z.ltb_irrefl.
Qed.

(** C5.  Every sequence of [executeCommand], [undo] and [redo] calls on a new
    editor runs to its end without an exception, and in the state it reaches
    [-1 <= currentPosition <= history.length - 1]. *)
Theorem position_stays_in_range h d (ks : list (call codeunit)) :
  ∃ st, run ks (h, new_DocumentEditor d) = Normal st
      ∧ -1 <= currentPosition (snd st) <= Z.of_nat (length (history (snd st))) - 1.
Proof.
  apply run_position_in_range. unfold position_in_range. simpl. lia.
Qed.

(** C7, amended.  Take an editor whose position is in range and a command
    whose snapshot is the content its document has now.  Then
    [executeCommand], [undo], [redo] all return, and the state after the
    [redo] (the store of documents and the editor) is the state right after
    the [executeCommand]. *)
Theorem execute_undo_redo_replays h e c :
  position_in_range e →
  Command_previousContent c = Document_getContent (Command_document c) h →
  ∃ st', undo (executeCommand c (h, e)) = Normal st'
       ∧ redo st' = Normal (executeCommand c (h, e)).
Proof.
  intros Hr Hsnap. rewrite undo_executeCommand by done.
  eexists. split; [done |].
  rewrite executeCommand_in_range by done.
  unfold redo. cbn [currentPosition history document].
  assert (length (take (Z.to_nat (currentPosition e + 1)) (history e) ++ [c])
          = Z.to_nat (currentPosition e + 2)) as Hlen.
  { destruct Hr. rewrite length_app, length_take. simpl. lia. }
  rewrite Hlen.
  replace (currentPosition e <? Z.of_nat (Z.to_nat (currentPosition e + 2)) - 1)
    with true by (symmetry; apply Z.ltb_lt; destruct Hr; lia).
  rewrite index_pushed by done.
  by rewrite execute_undo_execute.
Qed.

(** C9.  [removeText(0)] leaves the document empty, whatever it held:
    [content.slice(0, -0)] is [content.slice(0, 0)]. *)
Theorem removeText_zero_empties h d :
  Document_getContent d (Document_removeText d 0 h) = [].
Proof. rewrite getContent_removeText. apply slice_0_0. Qed.

(** C10.  For a command of either class, calling [undo] twice in a row
    leaves the store of documents as calling it once does. *)
Theorem Command_undo_idempotent h c :
  Command_undo c (Command_undo c h) = Command_undo c h.
Proof. rewrite !undo_spec. apply insert_insert_eq. Qed.

(** ** The fold of operations, for removes of at least one character *)

Lemma drive_positive_counts (ops : list (operation codeunit)) st :
  positive_counts ops →
  getContent (drive ops st) = spec_fold ops (getContent st).
Proof.
  revert st. induction ops as [| op ops IH]; intros st Hpos; [done |].
  apply Forall_cons in Hpos as [Hop Hpos]. simpl.
  rewrite IH by done. unfold spec_fold. f_equal.
  destruct st as [h e]. unfold getContent. simpl.
  destruct op as [text | count]; simpl.
  - apply getContent_addText.
  - by apply removeText_positive.
Qed.

End Claims.

(** * The example script *)

(** C8.  On a new, empty document, with each command constructed right
    before it goes to the editor: after [AddTextCommand "Hello "] and
    [AddTextCommand "World!"] the content is ["Hello World!"]; one [undo]
    makes it ["Hello "], a second [undo] makes it [""], and a [redo] after
    that makes it ["Hello "]. *)
Theorem hello_world_scenario :
  let '(d, h0) := new_Document ∅ in
  let st0 := (h0, new_DocumentEditor d) in
  let st1 := executeCommand (new_AddTextCommand d (js "Hello ") (fst st0)) st0 in
  let st2 := executeCommand (new_AddTextCommand d (js "World!") (fst st1)) st1 in
  getContent st2 = js "Hello World!"
  ∧ ∃ st3 st4 st5,
      undo st2 = Normal st3 ∧ getContent st3 = js "Hello "
      ∧ undo st3 = Normal st4 ∧ getContent st4 = js ""
      ∧ redo st4 = Normal st5 ∧ getContent st5 = js "Hello ".
Proof.
  split; [by vm_compute |].
  eexists _, _, _. repeat split; by vm_compute.
Qed.

(** The specification's second scenario: ["abcdef"], six characters removed,
    then three more from the empty buffer. *)
Example remove_all_then_more :
  let '(d, h0) := new_Document ∅ in
  let st := drive [Append (js "abcdef"); Remove 6] (h0, new_DocumentEditor d) in
  getContent st = js "" ∧ getContent (drive [Remove 3] st) = js "".
Proof. by vm_compute. Qed.

(** C1 as stated fails.  The three commands of the example script are
    constructed up front, on the empty document, so each snapshot is [""].
    After [addHello] the content is ["Hello "]; [addWorld] is executed on it
    and undone, and the content is then [""], not ["Hello "]. *)
Lemma undo_restores_the_construction_snapshot :
  let '(d, h0) := new_Document ∅ in
  let addHello := new_AddTextCommand d (js "Hello ") h0 in
  let addWorld := new_AddTextCommand d (js "World!") h0 in
  let st1 := executeCommand addHello (h0, new_DocumentEditor d) in
  getContent st1 = js "Hello "
  ∧ ∃ st', undo (executeCommand addWorld st1) = Normal st'
         ∧ getContent st' = js ""
         ∧ getContent st' ≠ getContent st1.
Proof.
  split; [by vm_compute |].
  eexists. repeat split; by vm_compute.
Qed.

(** C1, amended, at work: ["World!"] added to ["Hello "] by a command
    constructed on ["Hello "]. *)
Lemma execute_then_undo_restores_witness :
  let h := {[ 0%nat := js "Hello " ]} in
  let c := new_AddTextCommand 0 (js "World!") h in
  let e := {| history := [AddTextCommand 0 (js "Hello ") (js "")];
              currentPosition := 0; document := 0%nat |} in
  position_in_range e
  ∧ Command_previousContent c = Document_getContent (Command_document c) h
  ∧ ∃ st', undo (executeCommand c (h, e)) = Normal st'
         ∧ fst st' = Command_undo c (Command_execute c h)
         ∧ (∀ d, Document_getContent d (fst st') = Document_getContent d h)
         ∧ currentPosition (snd st') = currentPosition e.
Proof.
  intros h c e.
  assert (position_in_range e) as Hr by (unfold position_in_range; simpl; lia).
  assert (Command_previousContent c = Document_getContent (Command_document c) h)
    as Hsnap by reflexivity.
  split; [exact Hr |]. split; [exact Hsnap |].
  exact (execute_then_undo_restores h e c Hr Hsnap).
Defined.

(** C7 as stated fails, on the example script itself.  [removeChars] is
    constructed on the empty document and executed on ["Hello World!"],
    giving ["Hello "]; after [undo] and [redo] the content is [""]. *)
Lemma redo_replays_on_the_construction_snapshot :
  let '(d, h0) := new_Document ∅ in
  let addHello := new_AddTextCommand d (js "Hello ") h0 in
  let addWorld := new_AddTextCommand d (js "World!") h0 in
  let removeChars := new_RemoveTextCommand d 6 h0 in
  let st2 := executeCommand addWorld
               (executeCommand addHello (h0, new_DocumentEditor d)) in
  let st3 := executeCommand removeChars st2 in
  getContent st2 = js "Hello World!" ∧ getContent st3 = js "Hello "
  ∧ ∃ st4 st5, undo st3 = Normal st4 ∧ redo st4 = Normal st5
             ∧ getContent st5 = js ""
             ∧ getContent st5 ≠ getContent st3.
Proof.
  split; [by vm_compute |]. split; [by vm_compute |].
  eexists _, _. repeat split; by vm_compute.
Qed.

(** C7, amended, at work: six characters removed from ["Hello World!"] by a
    command constructed on ["Hello World!"]. *)
Lemma execute_undo_redo_replays_witness :
  let h := {[ 0%nat := js "Hello World!" ]} in
  let c := new_RemoveTextCommand 0 6 h in
  let e := {| history := [AddTextCommand 0 (js "Hello ") (js "");
                          AddTextCommand 0 (js "World!") (js "Hello ")];
              currentPosition := 1; document := 0%nat |} in
  position_in_range e
  ∧ Command_previousContent c = Document_getContent (Command_document c) h
  ∧ ∃ st', undo (executeCommand c (h, e)) = Normal st'
         ∧ redo st' = Normal (executeCommand c (h, e)).
Proof.
  intros h c e.
  assert (position_in_range e) as Hr by (unfold position_in_range; simpl; lia).
  assert (Command_previousContent c = Document_getContent (Command_document c) h)
    as Hsnap by reflexivity.
  split; [exact Hr |]. split; [exact Hsnap |].
  exact (execute_undo_redo_replays h e c Hr Hsnap).
Defined.

(** C6 at [removeText(0)]: the document holds ["abc"]; removing its last 0
    characters should leave ["abc"], and the code leaves [""]. *)
Theorem removeText_zero_on_abc :
  let h := {[ 0%nat := js "abc" ]} in
  Document_getContent 0 (Document_removeText 0 0 h) = js ""
  ∧ spec_apply (js "abc") (Remove 0) = js "abc".
Proof. by vm_compute. Qed.

(** C2 at [Append "abc"; Remove 0]: driven through the editor the two
    operations leave [""], and their fold over the empty buffer is ["abc"]. *)
Theorem drive_append_remove_zero :
  let '(d, h0) := new_Document ∅ in
  let ops := [Append (js "abc"); Remove 0] in
  getContent (drive ops (h0, new_DocumentEditor d)) = js ""
  ∧ spec_fold ops (js "") = js "abc".
Proof. by vm_compute. Qed.

(** * Editing sessions *)

Section SessionFacts.

Context {codeunit : Type}.
Implicit Types h : gmap nat (list codeunit).
Implicit Types c : Command codeunit.
Implicit Types e : DocumentEditor codeunit.
Implicit Types st : state codeunit.
Implicit Types initial : list codeunit.

Lemma execute_content c h :
  Document_getContent (Command_document c) (Command_execute c h)
  = Document_apply (Document_getContent (Command_document c) h) (Command_operation c).
Proof.
  destruct c; simpl; [apply getContent_addText | apply getContent_removeText].
Qed.

Lemma replay_snoc initial (cs : list (Command codeunit)) c :
  replay initial (cs ++ [c]) = Document_apply (replay initial cs) (Command_operation c).
Proof. unfold replay. by rewrite fmap_app, foldl_app. Qed.

Lemma wrap_document d (op : operation codeunit) h : Command_document (wrap d op h) = d.
Proof. by destruct op. Qed.

Lemma wrap_operation d (op : operation codeunit) h : Command_operation (wrap d op h) = op.
Proof. by destruct op. Qed.

Lemma wrap_previousContent d (op : operation codeunit) h :
  Command_previousContent (wrap d op h) = Document_getContent d h.
Proof. by destruct op. Qed.

(** An edit keeps a coherent state coherent. *)
Lemma coherent_edit initial (op : operation codeunit) st :
  coherent initial st →
  coherent initial (executeCommand (wrap (document (snd st)) op (fst st)) st).
Proof.
  destruct st as [h e]. intros (Hr & Hdoc & Hsnap & Hcontent).
  unfold getContent, applied in Hcontent. simpl in Hr, Hdoc, Hsnap, Hcontent.
  cbn [fst snd]. set (c := wrap (document e) op h).
  rewrite executeCommand_in_range by done.
  set (k := Z.to_nat (currentPosition e + 1)) in *.
  assert (k ≤ length (history e))%nat as Hk by (destruct Hr; lia).
  assert (length (take k (history e)) = k) as Hlen by (by apply length_take_le).
  unfold coherent, getContent, applied. cbn [fst snd history currentPosition document].
  split; [| split; [| split]].
  - pose proof (executeCommand_position_in_range c (h, e) Hr) as Hr'.
    by rewrite executeCommand_in_range in Hr' by done.
  - apply Forall_app. split; [by apply Forall_take |].
    apply Forall_singleton. apply wrap_document.
  - intros i c' Hi.
    destruct (decide (i < k)%nat) as [Hlt | Hge].
    + rewrite lookup_app_l in Hi by lia.
      rewrite lookup_take_lt in Hi by done.
      rewrite take_app_le by lia. rewrite take_take.
      replace (i `min` k)%nat with i by lia. by apply Hsnap.
    + assert (i = k) as ->.
      { apply lookup_lt_Some in Hi. rewrite length_app, Hlen in Hi. simpl in Hi. lia. }
      rewrite take_app_length' by done.
      rewrite (list_lookup_middle _ [] c k) in Hi by (symmetry; exact Hlen).
      injection Hi as <-. unfold c. by rewrite wrap_previousContent.
  - assert (Z.to_nat (currentPosition e + 1 + 1) = S k) as ->
      by (unfold k; destruct Hr; lia).
    rewrite take_ge by (rewrite length_app, Hlen; simpl; lia).
    rewrite replay_snoc, <- Hcontent.
    pose proof (execute_content c h) as Hx. unfold c in Hx at 1 3.
    rewrite wrap_document in Hx. rewrite Hx.
    unfold c. by rewrite wrap_operation.
Qed.

(** [undo] keeps a coherent state coherent, and the history as it is; the
    position goes down by one, and stays at -1 once it is there. *)
Lemma coherent_undo initial st :
  coherent initial st →
  ∃ st', undo st = Normal st' ∧ coherent initial st'
       ∧ history (snd st') = history (snd st)
       ∧ currentPosition (snd st') = Z.max (currentPosition (snd st) - 1) (-1).
Proof.
  destruct st as [h e]. intros (Hr & Hdoc & Hsnap & Hcontent).
  unfold getContent, applied in Hcontent. simpl in Hr, Hdoc, Hsnap, Hcontent.
  unfold undo. cbn [snd].
  destruct (Z.geb_spec (currentPosition e) 0) as [Hge | Hlt].
  - unfold index.
    replace (currentPosition e <? 0) with false by (symmetry; apply Z.ltb_ge; lia).
    destruct (lookup_lt_is_Some_2 (history e) (Z.to_nat (currentPosition e))) as [c Hc];
      [destruct Hr; lia |].
    rewrite Hc. eexists. split; [done |]. cbn [snd history currentPosition].
    split; [| split; [done | lia]].
    unfold coherent, getContent, applied. cbn [fst snd history currentPosition document].
    split; [destruct Hr; unfold position_in_range; simpl; lia |].
    split; [done |]. split; [done |].
    rewrite undo_spec, getContent_setContent.
    rewrite (proj1 (Forall_lookup _ _) Hdoc _ _ Hc).
    rewrite decide_True by done.
    rewrite (Hsnap _ _ Hc). do 2 f_equal. lia.
  - eexists. split; [done |]. simpl.
    split; [by unfold coherent, getContent, applied |].
    split; [done |]. destruct Hr. lia.
Qed.

(** [redo] keeps a coherent state coherent. *)
Lemma coherent_redo initial st :
  coherent initial st →
  ∃ st', redo st = Normal st' ∧ coherent initial st'
       ∧ history (snd st') = history (snd st).
Proof.
  destruct st as [h e]. intros (Hr & Hdoc & Hsnap & Hcontent).
  unfold getContent, applied in Hcontent. simpl in Hr, Hdoc, Hsnap, Hcontent.
  unfold redo. cbn [snd].
  destruct (Z.ltb_spec (currentPosition e) (Z.of_nat (length (history e)) - 1)) as [Hlt | Hge].
  - unfold index. cbn [history currentPosition].
    replace (currentPosition e + 1 <? 0) with false
      by (symmetry; apply Z.ltb_ge; destruct Hr; lia).
    destruct (lookup_lt_is_Some_2 (history e) (Z.to_nat (currentPosition e + 1))) as [c Hc];
      [destruct Hr; lia |].
    rewrite Hc. eexists. split; [done |]. cbn [snd history].
    split; [| done].
    unfold coherent, getContent, applied. cbn [fst snd history currentPosition document].
    split; [destruct Hr; unfold position_in_range; simpl; lia |].
    split; [done |]. split; [done |].
    pose proof (execute_content c h) as Hx.
    rewrite (proj1 (Forall_lookup _ _) Hdoc _ _ Hc) in Hx. rewrite Hx, Hcontent.
    replace (Z.to_nat (currentPosition e + 1 + 1))
      with (S (Z.to_nat (currentPosition e + 1))) by (destruct Hr; lia).
    by rewrite (take_S_r _ _ _ Hc), replay_snoc.
  - eexists. split; [done |]. split; [by unfold coherent, getContent, applied | done].
Qed.

Lemma session_app (rs1 rs2 : list (request codeunit)) st :
  session (rs1 ++ rs2) st
  = match session rs1 st with
    | Normal st' => session rs2 st'
    | TypeError st' => TypeError st'
    end.
Proof.
  revert st. induction rs1 as [| r rs1 IH]; intros st; simpl; [done |].
  by destruct (serve r st).
Qed.

(** A session never throws from a coherent state and ends in one; the
    history grows by one command per request at most. *)
Lemma session_coherent initial (rs : list (request codeunit)) st :
  coherent initial st →
  ∃ st', session rs st = Normal st' ∧ coherent initial st'
       ∧ (length (history (snd st')) ≤ length (history (snd st)) + length rs)%nat.
Proof.
  revert st. induction rs as [| r rs IH]; intros st Hco; simpl.
  - exists st. split; [done |]. split; [done | lia].
  - destruct r as [op | |]; simpl.
    + destruct (IH _ (coherent_edit initial op st Hco)) as (st' & Hs & Hco' & Hlen).
      exists st'. split; [done |]. split; [done |].
      destruct st as [h e]. destruct Hco as (Hr & _). simpl in Hr.
      rewrite executeCommand_in_range in Hlen by done.
      cbn [fst snd history] in *. rewrite length_app, length_take in Hlen.
      simpl in Hlen. lia.
    + destruct (coherent_undo initial st Hco) as (st1 & -> & Hco1 & Hh & _).
      destruct (IH _ Hco1) as (st' & Hs & Hco' & Hlen).
      exists st'. rewrite Hh in Hlen. split; [done |]. split; [done | lia].
    + destruct (coherent_redo initial st Hco) as (st1 & -> & Hco1 & Hh).
      destruct (IH _ Hco1) as (st' & Hs & Hco' & Hlen).
      exists st'. rewrite Hh in Hlen. split; [done |]. split; [done | lia].
Qed.

Lemma coherent_new_editor h d :
  coherent (Document_getContent d h) (h, new_DocumentEditor d).
Proof.
  unfold coherent, position_in_range. simpl.
  split; [lia |]. split; [done |]. split; [| done].
  intros i c Hi. by rewrite lookup_nil in Hi.
Qed.

(** Enough undos bring a coherent state to position -1. *)
Lemma undo_to_the_start initial (n : nat) st :
  coherent initial st →
  currentPosition (snd st) + 1 <= Z.of_nat n →
  ∃ st', session (replicate n UndoLast) st = Normal st' ∧ coherent initial st'
       ∧ currentPosition (snd st') = -1.
Proof.
  revert st. induction n as [| n IH]; intros st Hco Hn; simpl.
  - exists st. split; [done |]. split; [done |].
    destruct Hco as ([Hlo _] & _). lia.
  - destruct (coherent_undo initial st Hco) as (st1 & -> & Hco1 & _ & Hpos).
    apply IH; [done |]. destruct Hco as ([Hlo _] & _). lia.
Qed.

(** X1.  In a session on a new editor (every edit wrapped as a command on
    the editor's document and executed at once, undos and redos in any
    order) no call throws, and at the end the document holds its initial
    content with the applied commands of the history, those at indices
    [0 .. currentPosition], executed on it in order. *)
Theorem session_content_is_replay_of_applied h d (rs : list (request codeunit)) :
  ∃ st, session rs (h, new_DocumentEditor d) = Normal st
      ∧ getContent st = replay (Document_getContent d h) (applied (snd st)).
Proof.
  destruct (session_coherent _ rs _ (coherent_new_editor h d)) as (st & Hs & Hco & _).
  exists st. split; [done |]. by destruct Hco as (_ & _ & _ & Hcontent).
Qed.

(** X2.  After any session on a new editor, as many undos as the session had
    requests bring the document back to the content it had when the session
    started. *)
Theorem undo_everything_restores_initial_content h d (rs : list (request codeunit)) :
  ∃ st, session (rs ++ replicate (length rs) UndoLast) (h, new_DocumentEditor d) = Normal st
      ∧ getContent st = Document_getContent d h.
Proof.
  destruct (session_coherent _ rs _ (coherent_new_editor h d)) as (st1 & Hs & Hco & Hlen).
  simpl in Hlen.
  destruct (undo_to_the_start _ (length rs) st1 Hco) as (st & Hu & Hco' & Hpos).
  { destruct Hco as ([_ Hhi] & _). lia. }
  exists st. rewrite session_app, Hs. split; [done |].
  destruct Hco' as (_ & _ & _ & Hcontent). rewrite Hcontent.
  unfold applied. by rewrite Hpos.
Qed.

(** X3.  Right after [executeCommand] there is nothing to redo: with the
    position in range, a [redo] that follows returns and changes nothing,
    whatever the history held beyond the position before. *)
Theorem redo_after_executeCommand_changes_nothing h e c :
  position_in_range e →
  redo (executeCommand c (h, e)) = Normal (executeCommand c (h, e)).
Proof.
  intros Hr. rewrite executeCommand_in_range by done.
  unfold redo. cbn [history currentPosition].
  replace (currentPosition e + 1 <? _) with false; [done |].
  symmetry. apply Z.ltb_ge. rewrite length_app, length_take. simpl.
  destruct Hr. lia.
Qed.

(** X4.  Operations driven through [executeCommand] one after the other
    leave in the document the fold of what [addText] and [removeText]
    compute, for every count: a remove of [length] characters keeps
    [content.slice(0, -length)]. *)
Theorem drive_content_is_fold (ops : list (operation codeunit)) st :
  getContent (drive ops st) = foldl Document_apply (getContent st) ops.
Proof.
  revert st. induction ops as [| op ops IH]; intros st; [done |].
  simpl. rewrite IH. f_equal.
  destruct st as [h e]. unfold getContent. simpl.
  destruct op as [text | count]; simpl.
  - apply getContent_addText.
  - apply getContent_removeText.
Qed.

End SessionFacts.

(** * The observer pattern *)

Section ObserverFacts.

Context {Obs : Type} `{EqDecision Obs}.
Implicit Types observers pre post : list Obs.
Implicit Types o x : Obs.

Lemma indexOf_from_absent observers x (i : Z) :
  x ∉ observers → indexOf_from observers x i = -1.
Proof.
  revert i. induction observers as [| y observers IH]; intros i Hx; simpl; [done |].
  apply not_elem_of_cons in Hx as [Hne Hx].
  rewrite decide_False by done. by apply IH.
Qed.

Lemma indexOf_from_first pre post x (i : Z) :
  x ∉ pre → indexOf_from (pre ++ x :: post) x i = i + Z.of_nat (length pre).
Proof.
  revert i. induction pre as [| y pre IH]; intros i Hx; simpl.
  - rewrite decide_True by done. lia.
  - apply not_elem_of_cons in Hx as [Hne Hx].
    rewrite decide_False by done. rewrite IH by done. lia.
Qed.

Lemma splice_one pre post x :
  splice (pre ++ x :: post) (Z.of_nat (length pre)) 1 = pre ++ post.
Proof.
  unfold splice. rewrite length_app. simpl.
  replace (Z.of_nat (length pre) <? 0) with false by (symmetry; apply Z.ltb_ge; lia).
  rewrite Z.min_l by lia. rewrite Z.max_l by lia. rewrite Z.min_l by lia.
  rewrite Nat2Z.id.
  replace (Z.to_nat (Z.of_nat (length pre) + 1)) with (S (length pre)) by lia.
  rewrite take_app_length.
  rewrite cons_middle, app_assoc. rewrite drop_app_length'; [done |].
  rewrite length_app. simpl. lia.
Qed.

(** [detach] takes the first occurrence out and leaves the rest in place. *)
Lemma detach_first pre post x :
  x ∉ pre → EventEmitter_detach x (pre ++ x :: post) = pre ++ post.
Proof.
  intros Hx. unfold EventEmitter_detach, indexOf.
  rewrite indexOf_from_first by done. rewrite Z.add_0_l.
  replace (Z.of_nat (length pre) >? -1) with true by (symmetry; apply Z.gtb_lt; lia).
  apply splice_one.
Qed.

Lemma detach_absent observers x :
  x ∉ observers → EventEmitter_detach x observers = observers.
Proof.
  intros Hx. unfold EventEmitter_detach, indexOf.
  by rewrite indexOf_from_absent.
Qed.

Lemma attach_absent observers x :
  x ∉ observers → EventEmitter_attach x observers = observers ++ [x].
Proof.
  intros Hx. unfold EventEmitter_attach, includes.
  by rewrite bool_decide_eq_false_2.
Qed.

Lemma attach_present observers x :
  x ∈ observers → EventEmitter_attach x observers = observers.
Proof.
  intros Hx. unfold EventEmitter_attach, includes.
  by rewrite bool_decide_eq_true_2.
Qed.

Lemma register_NoDup (r : registration Obs) observers :
  NoDup observers → NoDup (register r observers).
Proof.
  intros Hnd. destruct r as [o | o]; simpl.
  - destruct (decide (o ∈ observers)) as [Hin | Hout].
    + by rewrite attach_present.
    + rewrite attach_absent by done.
      apply NoDup_app. split; [done |]. split; [| apply NoDup_singleton].
      intros x Hx ->%list_elem_of_singleton. done.
  - destruct (decide (o ∈ observers)) as [Hin | Hout].
    + apply list_elem_of_split_l in Hin as (pre & post & -> & Hpre).
      rewrite detach_first by done.
      apply NoDup_app in Hnd as (Hn1 & Hsep & Hn2).
      apply NoDup_cons in Hn2 as [_ Hn2].
      apply NoDup_app. split; [done |]. split; [| done].
      intros x Hx Hx'. apply (Hsep x Hx). by right.
    + by rewrite detach_absent.
Qed.

Lemma registrations_snoc (rs : list (registration Obs)) r :
  registrations (rs ++ [r]) = register r (registrations rs).
Proof. unfold registrations. by rewrite foldl_app. Qed.

Lemma registrations_NoDup (rs : list (registration Obs)) : NoDup (registrations rs).
Proof.
  induction rs as [| r rs IH] using rev_ind.
  - apply NoDup_nil_2.
  - rewrite registrations_snoc. by apply register_NoDup.
Qed.

Lemma filter_other_absent observers x :
  x ∉ observers → filter (λ y, y ≠ x) observers = observers.
Proof.
  induction observers as [| y observers IH]; intros Hx; [done |].
  apply not_elem_of_cons in Hx as [Hne Hx].
  rewrite filter_cons_True by done. by rewrite IH.
Qed.

Lemma detach_NoDup_filter observers x :
  NoDup observers → EventEmitter_detach x observers = filter (λ y, y ≠ x) observers.
Proof.
  intros Hnd. destruct (decide (x ∈ observers)) as [Hin | Hout].
  - apply list_elem_of_split_l in Hin as (pre & post & -> & Hpre).
    rewrite detach_first by done.
    apply NoDup_app in Hnd as (_ & _ & Hn2).
    apply NoDup_cons in Hn2 as [Hpost _].
    rewrite filter_app, filter_cons_False by (intros Hne; by apply Hne).
    by rewrite !filter_other_absent.
  - rewrite detach_absent by done. by rewrite filter_other_absent.
Qed.

(** X5.  Whatever [attach] and [detach] calls a new emitter receives, its
    [observers] array never holds the same observer twice. *)
Theorem observers_are_never_attached_twice (rs : list (registration Obs)) :
  NoDup (registrations rs).
Proof. apply registrations_NoDup. Qed.

(** X6.  On an emitter reached by [attach] and [detach] calls, [detach]
    takes the observer out and leaves every other observer where it was:
    the array becomes the old one without that observer. *)
Theorem detach_removes_only_that_observer (rs : list (registration Obs)) o :
  EventEmitter_detach o (registrations rs) = filter (λ x, x ≠ o) (registrations rs)
  ∧ o ∉ EventEmitter_detach o (registrations rs).
Proof.
  rewrite detach_NoDup_filter by apply registrations_NoDup.
  split; [done |]. rewrite list_elem_of_filter. intros [Hne _]. by apply Hne.
Qed.


(** X8.  An observer that is not attached: [attach] and then [detach] gives
    the array back as it was, and [detach] alone changes nothing. *)
Theorem attach_then_detach_restores observers o :
  o ∉ observers →
  EventEmitter_detach o (EventEmitter_attach o observers) = observers
  ∧ EventEmitter_detach o observers = observers.
Proof.
  intros Hout. split; [| by apply detach_absent].
  rewrite attach_absent by done. rewrite detach_first by done. apply app_nil_r.
Qed.


End ObserverFacts.

(** * The singleton *)

Section SingletonFacts.

Implicit Types this : DatabaseConnection.
Implicit Types out : list output.
Implicit Types instance : option DatabaseConnection.

(** X10.  Once [getInstance] has returned, the static field holds an
    instance, and every later [getInstance] returns that same instance and
    leaves it as it is, with or without a connection string: the string of a
    later call is ignored. *)
Theorem getInstance_keeps_the_first_instance
    (first later : option (list ascii)) instance instance' out out' out'' :
  DatabaseConnection_getInstance first instance out = Return instance' out' →
  is_Some instance'
  ∧ DatabaseConnection_getInstance later instance' out'' = Return instance' out''.
Proof.
  unfold DatabaseConnection_getInstance. intros Hfirst.
  destruct instance as [this |].
  - injection Hfirst as <- <-. by split; [eexists |].
  - destruct (missing first); [done |].
    injection Hfirst as <- <-. by split; [eexists |].
Qed.

(** X11.  While no instance exists, [getInstance] throws exactly when the
    connection string is [undefined] or the empty string; otherwise it
    returns an instance that holds the string and is not connected, so that
    [query] on it throws. *)
Theorem getInstance_first_call {row : Type} (first : option (list ascii)) out :
  (first = None ∨ first = Some [] →
     DatabaseConnection_getInstance first None out
     = Throw (mkError (js "Connection string required for first instance")) out)
  ∧ (∀ s, first = Some s → s ≠ [] →
       ∃ this, DatabaseConnection_getInstance first None out = Return (Some this) out
             ∧ connectionString this = s
             ∧ ∀ sql, DatabaseConnection_query (row := row) sql this out
                      = Throw (mkError (js "Database not connected")) out).
Proof.
  split.
  - by intros [-> | ->].
  - intros s -> Hs. destruct s as [| a s]; [done |]. by eexists.
Qed.

(** X12.  [query] returns, with the empty result, on an instance that
    [connect] was last called on, and throws "Database not connected" on one
    that [disconnect] was last called on, whatever state the instance was in
    before. *)
Theorem query_needs_a_connection {row : Type} this out (sql : list ascii) :
  (let '(connected, out1) := DatabaseConnection_connect this out in
   DatabaseConnection_query (row := row) sql connected out1
   = Return [] (out1 ++ [console_log [js "Executing query: " ++ sql]]))
  ∧ (let '(disconnected, out2) := DatabaseConnection_disconnect this out in
     DatabaseConnection_query (row := row) sql disconnected out2
     = Throw (mkError (js "Database not connected")) out2).
Proof. by destruct this as [s [|]]. Qed.

(** X13.  A second [connect] in a row does nothing and prints nothing, and
    so does a second [disconnect]; between them, [connect] and then
    [disconnect] leave the instance not connected. *)
Theorem connect_twice_is_connect_once this out :
  (let '(connected, out1) := DatabaseConnection_connect this out in
   DatabaseConnection_connect connected out1 = (connected, out1)
   ∧ isConnected (DatabaseConnection_disconnect connected out1).1 = false)
  ∧ (let '(disconnected, out2) := DatabaseConnection_disconnect this out in
     DatabaseConnection_disconnect disconnected out2 = (disconnected, out2)).
Proof. by destruct this as [s [|]]. Qed.

End SingletonFacts.

(** * Payment strategies *)

Section PaymentFacts.

Context {number : Type}.
Variable Number_toString : number → list ascii.

Implicit Types s searchString : list ascii.
Implicit Types out : list output.

(** [includes] finds exactly the strings that occur somewhere in [s]. *)
Lemma String_includes_spec s searchString :
  String_includes s searchString = true
  ↔ ∃ before after, s = before ++ searchString ++ after.
Proof.
  induction s as [| a s IH]; simpl.
  - rewrite orb_false_r, bool_decide_eq_true. split.
    + intros [after ->]. by exists [], after.
    + intros (before & after & Heq). symmetry in Heq.
      apply app_eq_nil in Heq as [-> [-> ->]%app_eq_nil]. done.
  - rewrite orb_true_iff, bool_decide_eq_true, IH. split.
    + intros [[after ->] | (before & after & ->)].
      * by exists [], after.
      * by exists (a :: before), after.
    + intros (before & after & Heq). destruct before as [| b before].
      * left. exists after. done.
      * injection Heq as -> ->. right. by exists before, after.
Qed.

(** [s.slice(-k)] is the last [k] characters of a string that has at least
    [k]. *)
Lemma slice_last s (k : Z) :
  0 < k <= Z.of_nat (length s) →
  slice s (- k) (Z.of_nat (length s)) = drop (Z.to_nat (Z.of_nat (length s) - k)) s.
Proof.
  intros Hk. unfold slice.
  replace (- k <? 0) with true by (symmetry; apply Z.ltb_lt; lia).
  replace (Z.of_nat (length s) <? 0) with false by (symmetry; apply Z.ltb_ge; lia).
  rewrite Z.max_l by lia. rewrite Z.min_l by lia.
  replace (Z.of_nat (length s) + - k >=? Z.of_nat (length s)) with false
    by (symmetry; rewrite Z.geb_leb; apply Z.leb_gt; lia).
  replace (Z.of_nat (length s) + - k) with (Z.of_nat (length s) - k) by lia.
  apply take_ge. rewrite length_drop. lia.
Qed.


(** X15.  A credit card that validates has sixteen characters, and the line
    [pay] prints is "Paid $", the amount, " using Credit Card ending in " and
    the last four of them. *)
Theorem valid_card_prints_last_four (cardNumber cvv : list ascii) (amount : number) out :
  PaymentStrategy_validate (CreditCardPayment cardNumber cvv) = true →
  ∃ hidden last4,
    cardNumber = hidden ++ last4 ∧ length hidden = 12%nat ∧ length last4 = 4%nat
    ∧ PaymentStrategy_pay Number_toString (CreditCardPayment cardNumber cvv) amount out
      = Return tt (out ++ [console_log
          [js "Paid $" ++ Number_toString amount
           ++ js " using Credit Card ending in " ++ last4]]).
Proof.
  intros Hvalid. unfold PaymentStrategy_pay. rewrite Hvalid.
  simpl in Hvalid. apply andb_true_iff in Hvalid as [Hcard _].
  apply Z.eqb_eq in Hcard.
  exists (take 12 cardNumber), (drop 12 cardNumber).
  split; [by rewrite take_drop |].
  split; [rewrite length_take; lia |].
  split; [rewrite length_drop; lia |].
  change (-4) with (Z.opp 4). rewrite (slice_last cardNumber 4) by lia.
  by replace (Z.to_nat (Z.of_nat (length cardNumber) - 4)) with 12%nat by lia.
Qed.

(** X16.  A PayPal payment validates exactly when its email holds an ["@"]
    somewhere; nothing else about the email is checked. *)
Theorem paypal_validates_on_at_sign (email : list ascii) :
  PaymentStrategy_validate (PayPalPayment email) = true
  ↔ ∃ before after, email = before ++ js "@" ++ after.
Proof. apply String_includes_spec. Qed.

End PaymentFacts.

(** * The query builder *)

Section BuilderFacts.

Variable Number_toString : Z → list ascii.

Implicit Types this : QueryBuilder.

Lemma where_all_fields (cs : list (list ascii)) this :
  QueryBuilder_where_all cs this
  = {| query := query this; conditions := conditions this ++ cs;
       orderBy := orderBy this; limitValue := limitValue this |}.
Proof.
  revert this. unfold QueryBuilder_where_all.
  induction cs as [| c cs IH]; intros this; simpl.
  - rewrite app_nil_r. by destruct this.
  - rewrite IH. simpl. by rewrite <- app_assoc.
Qed.

(** X20.  The chain of the example, for any arguments: [select], [from],
    one [where] or more, [orderByColumn], a [limit] above zero and [build]
    give the clauses in SQL order, the conditions joined by [" AND "] in
    the order of the [where] calls. *)
Theorem build_full_query (cs : columns) (table : list ascii)
    (conds : list (list ascii)) (col : list ascii) (d : option direction) (n : Z) :
  conds ≠ [] → 0 < n →
  QueryBuilder_build Number_toString
    (QueryBuilder_limit n
       (QueryBuilder_orderByColumn col d
          (QueryBuilder_where_all conds
             (QueryBuilder_from table (QueryBuilder_select cs new_QueryBuilder)))))
  = js "SELECT "
    ++ match cs with column name => name | column_array names => join (js ", ") names end
    ++ js " FROM " ++ table
    ++ js " WHERE " ++ join (js " AND ") conds
    ++ js " ORDER BY " ++ col ++ js " " ++ direction_string (default ASC d)
    ++ js " LIMIT " ++ Number_toString n.
Proof.
  intros Hconds Hn. rewrite where_all_fields.
  unfold QueryBuilder_build. cbn [query conditions orderBy limitValue
    QueryBuilder_limit QueryBuilder_orderByColumn QueryBuilder_from
    QueryBuilder_select new_QueryBuilder].
  rewrite app_nil_l.
  replace (Z.of_nat (length conds) >? 0) with true
    by (symmetry; apply Z.gtb_lt; destruct conds; [done | simpl; lia]).
  replace (n >? 0) with true by (symmetry; apply Z.gtb_lt; lia).
  rewrite bool_decide_eq_false_2 by done. cbn [negb].
  destruct cs; by rewrite <- !app_assoc.
Qed.

(** X21.  [from], [where], [orderByColumn] and [limit] each write a part of
    the builder of their own: called in either order, any two of them leave
    the same builder, so the built query does not depend on the order of
    these calls. *)
Theorem clause_calls_commute (table cond col : list ascii) (d : option direction)
    (n : Z) this :
  QueryBuilder_where cond (QueryBuilder_from table this)
  = QueryBuilder_from table (QueryBuilder_where cond this)
  ∧ QueryBuilder_orderByColumn col d (QueryBuilder_from table this)
    = QueryBuilder_from table (QueryBuilder_orderByColumn col d this)
  ∧ QueryBuilder_limit n (QueryBuilder_from table this)
    = QueryBuilder_from table (QueryBuilder_limit n this)
  ∧ QueryBuilder_orderByColumn col d (QueryBuilder_where cond this)
    = QueryBuilder_where cond (QueryBuilder_orderByColumn col d this)
  ∧ QueryBuilder_limit n (QueryBuilder_where cond this)
    = QueryBuilder_where cond (QueryBuilder_limit n this)
  ∧ QueryBuilder_limit n (QueryBuilder_orderByColumn col d this)
    = QueryBuilder_orderByColumn col d (QueryBuilder_limit n this).
Proof. done. Qed.

(** X22.  [select] starts the query text over: a [from] (or a [select])
    called before it is lost, and the query built afterwards has no FROM
    clause unless [from] is called again. *)
Theorem select_discards_earlier_from (cs : columns) (table : list ascii) this :
  QueryBuilder_select cs (QueryBuilder_from table this) = QueryBuilder_select cs this
  ∧ QueryBuilder_build Number_toString
      (QueryBuilder_select cs (QueryBuilder_from table new_QueryBuilder))
    = js "SELECT "
      ++ match cs with column name => name | column_array names => join (js ", ") names end.
Proof. split; [done |]. by destruct cs. Qed.

(** X23.  A limit of zero or less is no limit: the built query has no LIMIT
    clause, as if [limit(0)] had been called. *)
Theorem nonpositive_limit_is_no_limit (n : Z) this :
  n <= 0 →
  QueryBuilder_build Number_toString (QueryBuilder_limit n this)
  = QueryBuilder_build Number_toString (QueryBuilder_limit 0 this)
  ∧ ∀ render, QueryBuilder_build render (QueryBuilder_limit n this)
              = QueryBuilder_build Number_toString (QueryBuilder_limit n this).
Proof.
  intros Hn. unfold QueryBuilder_build. cbn [QueryBuilder_limit limitValue query
    conditions orderBy].
  replace (n >? 0) with false by (symmetry; rewrite Z.gtb_ltb; apply Z.ltb_ge; lia).
  done.
Qed.

End BuilderFacts.

(** * The chain of responsibility *)

Section ChainFacts.

Implicit Types hs : gmap nat Handler.
Implicit Types request : AuthRequest.
Implicit Types out : list output.

Lemma handle_chain hs this cs request out :
  chain hs this cs →
  ∀ fuel, (length cs ≤ fuel)%nat →
  Handler_handle fuel hs this request out = Some (first_capable cs request out).
Proof.
  induction 1 as [this c Hthis | this c n cs Hthis Hchain IH]; intros fuel Hfuel.
  - destruct fuel as [| fuel]; [simpl in Hfuel; lia |].
    simpl. rewrite Hthis. simpl. by destruct (Handler_canHandle c request).
  - destruct fuel as [| fuel]; [simpl in Hfuel; lia |].
    simpl. rewrite Hthis. simpl.
    destruct (Handler_canHandle c request); [done |].
    apply IH. simpl in Hfuel. lia.
Qed.

Lemma example_chain_is_chain (t p l : nat) (requiredPermission : list ascii) :
  t ≠ p → p ≠ l → t ≠ l →
  chain (example_chain t p l requiredPermission) t
    [TokenValidationHandler; PermissionHandler requiredPermission; LoggingHandler].
Proof.
  intros Htp Hpl Htl. unfold example_chain, Handler_setNext, new_Handler.
  apply chain_next with (n := p).
  { by simplify_map_eq. }
  apply chain_next with (n := l).
  { by simplify_map_eq. }
  apply chain_last. by simplify_map_eq.
Qed.

(** X17.  On a chain of handlers that ends in a handler whose [next] is
    [null], [handle] returns what the first handler that can handle the
    request makes of it, and the handlers after that one are not asked; when
    no handler of the chain can handle the request it throws "No handler can
    process this request". *)
Theorem handle_runs_first_capable_handler hs this cs request out (fuel : nat) :
  chain hs this cs →
  (length cs ≤ fuel)%nat →
  Handler_handle fuel hs this request out = Some (first_capable cs request out).
Proof. intros Hchain Hfuel. by apply handle_chain. Qed.

(** X18.  On the chain of the example (token, then permission, then
    logging), a request whose token is not empty and is not "invalid" comes
    back from the token handler: the console gets "Validating token..." and
    "Token validated" and nothing else, and the permissions of the request
    are not looked at. *)
Theorem token_handler_answers_before_permissions_are_checked
    (t p l : nat) (requiredPermission : list ascii) request out (fuel : nat) :
  t ≠ p → p ≠ l → t ≠ l →
  token request ≠ [] → token request ≠ js "invalid" →
  Handler_handle (S fuel) (example_chain t p l requiredPermission) t request out
  = Some (Return request
            (out ++ [console_log [js "Validating token..."]]
                 ++ [console_log [js "Token validated"]])).
Proof.
  intros Htp Hpl Htl Hempty Hinvalid.
  pose proof (example_chain_is_chain t p l requiredPermission Htp Hpl Htl) as Hchain.
  inversion Hchain as [| ? ? n cs Hthis _]; subst.
  simpl. rewrite Hthis. simpl.
  rewrite bool_decide_eq_false_2 by done. simpl.
  rewrite bool_decide_eq_false_2 by done.
  by rewrite <- app_assoc.
Qed.

(** X19.  On the chain of the example every request is handled: [handle]
    returns the request, or throws "Invalid token" or "Missing permission:"
    with the required permission; it never throws "No handler can process
    this request".  The permission is checked only when the token is
    empty and the request has permissions. *)
Theorem example_chain_handles_every_request
    (t p l : nat) (requiredPermission : list ascii) request out (fuel : nat) :
  t ≠ p → p ≠ l → t ≠ l →
  ∃ result,
    Handler_handle (3 + fuel) (example_chain t p l requiredPermission) t request out
    = Some result
    ∧ match result with
      | Return r _ => r = request
      | Throw e out' =>
          (e = mkError (js "Invalid token") ∧ token request = js "invalid")
          ∨ (e = mkError (js "Missing permission: " ++ requiredPermission)
             ∧ token request = [] ∧ permissions request ≠ []
             ∧ requiredPermission ∉ permissions request)
      end.
Proof.
  intros Htp Hpl Htl.
  pose proof (example_chain_is_chain t p l requiredPermission Htp Hpl Htl) as Hchain.
  rewrite (handle_chain _ _ _ request out Hchain) by (simpl; lia).
  eexists. split; [done |]. simpl.
  destruct (decide (token request = [])) as [Htoken | Htoken].
  - rewrite (bool_decide_eq_true_2 _ Htoken). simpl.
    destruct (permissions request) as [| perm perms] eqn:Hperms; simpl; [done |].
    unfold includes.
    destruct (decide (requiredPermission ∈ perm :: perms)) as [Hin | Hout].
    + by rewrite (bool_decide_eq_true_2 _ Hin).
    + rewrite (bool_decide_eq_false_2 _ Hout). simpl. right. done.
  - rewrite (bool_decide_eq_false_2 _ Htoken). simpl.
    destruct (decide (token request = js "invalid")) as [Hinv | Hinv].
    + rewrite (bool_decide_eq_true_2 _ Hinv). left. done.
    + by rewrite (bool_decide_eq_false_2 _ Hinv).
Qed.

End ChainFacts.

(** * The properties at work on the inputs of the example script *)

(** X3 at work: a remove executed at position 0 of a history of two. *)
Lemma redo_after_executeCommand_changes_nothing_witness :
  let h := {[ 0%nat := js "Hello " ]} in
  let e := {| history := [AddTextCommand 0 (js "Hello ") (js "");
                          AddTextCommand 0 (js "World!") (js "Hello ")];
              currentPosition := 0; document := 0%nat |} in
  let c := new_RemoveTextCommand 0 2 h in
  position_in_range e
  ∧ redo (executeCommand c (h, e)) = Normal (executeCommand c (h, e)).
Proof.
  intros h e c.
  assert (position_in_range e) as Hr by (unfold position_in_range; simpl; lia).
  split; [exact Hr |].
  exact (redo_after_executeCommand_changes_nothing h e c Hr).
Defined.

(** X8 at work: a third observer on an emitter that has two. *)
Lemma attach_then_detach_restores_witness :
  (3%nat ∉ [1%nat; 2%nat])
  ∧ EventEmitter_detach 3%nat (EventEmitter_attach 3%nat [1%nat; 2%nat]) = [1%nat; 2%nat]
  ∧ EventEmitter_detach 3%nat [1%nat; 2%nat] = [1%nat; 2%nat].
Proof.
  assert (3%nat ∉ [1%nat; 2%nat]) as Hout
    by (repeat (apply not_elem_of_cons; split; [discriminate |]); apply not_elem_of_nil).
  split; [exact Hout |].
  exact (attach_then_detach_restores [1%nat; 2%nat] 3%nat Hout).
Defined.

(** X10 at work: the two [getInstance] calls of the example script. *)
Lemma getInstance_keeps_the_first_instance_witness :
  let db := Some {| connectionString := js "postgresql://localhost:5432/mydb";
                    isConnected := false |} in
  DatabaseConnection_getInstance (Some (js "postgresql://localhost:5432/mydb")) None []
  = Return db []
  ∧ is_Some db
  ∧ DatabaseConnection_getInstance None db [] = Return db [].
Proof.
  intros db.
  assert (DatabaseConnection_getInstance
            (Some (js "postgresql://localhost:5432/mydb")) None [] = Return db [])
    as Hfirst by reflexivity.
  split; [exact Hfirst |].
  exact (getInstance_keeps_the_first_instance _ None None db [] [] [] Hfirst).
Defined.

(** X15 at work: the credit card of the example script. *)
Lemma valid_card_prints_last_four_witness :
  let render := λ _ : Z, js "100" in
  PaymentStrategy_validate (CreditCardPayment (js "1234567890123456") (js "123")) = true
  ∧ ∃ hidden last4,
      js "1234567890123456" = hidden ++ last4
      ∧ length hidden = 12%nat ∧ length last4 = 4%nat
      ∧ PaymentStrategy_pay render
          (CreditCardPayment (js "1234567890123456") (js "123")) 100 []
        = Return tt ([] ++ [console_log
            [js "Paid $" ++ render 100 ++ js " using Credit Card ending in " ++ last4]]).
Proof.
  intros render.
  assert (PaymentStrategy_validate
            (CreditCardPayment (js "1234567890123456") (js "123")) = true)
    as Hvalid by reflexivity.
  split; [exact Hvalid |].
  exact (valid_card_prints_last_four render _ _ 100 [] Hvalid).
Defined.

(** X20 at work: a query shaped like the one of the example script. *)
Lemma build_full_query_witness :
  let render := λ _ : Z, js "10" in
  let conds := [js "age > 18"; js "status = 'active'"] in
  conds ≠ [] ∧ 0 < 10
  ∧ QueryBuilder_build render
      (QueryBuilder_limit 10
         (QueryBuilder_orderByColumn (js "name") (Some ASC)
            (QueryBuilder_where_all conds
               (QueryBuilder_from (js "users")
                  (QueryBuilder_select
                     (column_array [js "name"; js "email"; js "age"])
                     new_QueryBuilder)))))
    = js "SELECT " ++ join (js ", ") [js "name"; js "email"; js "age"]
      ++ js " FROM " ++ js "users"
      ++ js " WHERE " ++ join (js " AND ") conds
      ++ js " ORDER BY " ++ js "name" ++ js " " ++ direction_string (default ASC (Some ASC))
      ++ js " LIMIT " ++ render 10.
Proof.
  intros render conds.
  assert (conds ≠ []) as Hconds by discriminate.
  assert (0 < 10) as Hn by lia.
  split; [exact Hconds |]. split; [exact Hn |].
  exact (build_full_query render
           (column_array [js "name"; js "email"; js "age"])
           (js "users") conds (js "name") (Some ASC) 10 Hconds Hn).
Defined.

(** X23 at work: a limit of -5 on a query with a table. *)
Lemma nonpositive_limit_is_no_limit_witness :
  let render := λ _ : Z, js "-5" in
  let b := QueryBuilder_from (js "users")
             (QueryBuilder_select (column (js "*")) new_QueryBuilder) in
  -5 <= 0
  ∧ QueryBuilder_build render (QueryBuilder_limit (-5) b)
    = QueryBuilder_build render (QueryBuilder_limit 0 b)
  ∧ ∀ render', QueryBuilder_build render' (QueryBuilder_limit (-5) b)
               = QueryBuilder_build render (QueryBuilder_limit (-5) b).
Proof.
  intros render b.
  assert (-5 <= 0) as Hn by lia.
  split; [exact Hn |].
  exact (nonpositive_limit_is_no_limit render (-5) b Hn).
Defined.

(** X17 at work: the chain of the example script and its first request. *)
Lemma handle_runs_first_capable_handler_witness :
  let hs := example_chain 0 1 2 (js "read") in
  let cs := [TokenValidationHandler; PermissionHandler (js "read"); LoggingHandler] in
  let request := {| token := js "valid_token_123";
                    permissions := [js "read"; js "write"] |} in
  chain hs 0%nat cs ∧ (length cs ≤ 3)%nat
  ∧ Handler_handle 3 hs 0%nat request [] = Some (first_capable cs request []).
Proof.
  intros hs cs request.
  assert (chain hs 0%nat cs) as Hchain
    by (apply example_chain_is_chain; discriminate).
  assert (length cs ≤ 3)%nat as Hfuel by (simpl; lia).
  split; [exact Hchain |]. split; [exact Hfuel |].
  exact (handle_runs_first_capable_handler hs 0%nat cs request [] 3 Hchain Hfuel).
Defined.

(** X18 at work: the second request of the example script, which has a
    token and lacks the permission "read". *)
Lemma token_handler_answers_before_permissions_are_checked_witness :
  let request := {| token := js "valid_token_123"; permissions := [js "write"] |} in
  (0 ≠ 1)%nat ∧ (1 ≠ 2)%nat ∧ (0 ≠ 2)%nat
  ∧ token request ≠ [] ∧ token request ≠ js "invalid"
  ∧ Handler_handle 3 (example_chain 0 1 2 (js "read")) 0%nat request []
    = Some (Return request
              ([] ++ [console_log [js "Validating token..."]]
                  ++ [console_log [js "Token validated"]])).
Proof.
  intros request.
  assert (0 ≠ 1)%nat as H01 by discriminate.
  assert (1 ≠ 2)%nat as H12 by discriminate.
  assert (0 ≠ 2)%nat as H02 by discriminate.
  assert (token request ≠ []) as Hempty by discriminate.
  assert (token request ≠ js "invalid") as Hinvalid by discriminate.
  repeat (split; [assumption |]).
  exact (token_handler_answers_before_permissions_are_checked
           0 1 2 (js "read") request [] 2 H01 H12 H02 Hempty Hinvalid).
Defined.

(** X19 at work: a request without a token that lacks the permission. *)
Lemma example_chain_handles_every_request_witness :
  let request := {| token := js ""; permissions := [js "write"] |} in
  (0 ≠ 1)%nat ∧ (1 ≠ 2)%nat ∧ (0 ≠ 2)%nat
  ∧ ∃ result,
      Handler_handle (3 + 0) (example_chain 0 1 2 (js "read")) 0%nat request [] = Some result
      ∧ match result with
        | Return r _ => r = request
        | Throw e out' =>
            (e = mkError (js "Invalid token") ∧ token request = js "invalid")
            ∨ (e = mkError (js "Missing permission: " ++ js "read")
               ∧ token request = [] ∧ permissions request ≠ []
               ∧ js "read" ∉ permissions request)
        end.
Proof.
  intros request.
  assert (0 ≠ 1)%nat as H01 by discriminate.
  assert (1 ≠ 2)%nat as H12 by discriminate.
  assert (0 ≠ 2)%nat as H02 by discriminate.
  repeat (split; [assumption |]).
  exact (example_chain_handles_every_request 0 1 2 (js "read") request [] 0 H01 H12 H02).
Defined.

(** * Snapshots and aliasing in the editor *)

Section SnapshotFacts.

Context {codeunit : Type}.
Implicit Types h : gmap nat (list codeunit).
Implicit Types c : Command codeunit.
Implicit Types e : DocumentEditor codeunit.

(** X24.  With the position in range, [executeCommand] followed by [undo]
    leaves in the command's document the snapshot the command took when it
    was constructed, whatever the document held when the command was
    executed, and leaves the other documents as they were. *)
Theorem undo_writes_back_the_snapshot h e c :
  position_in_range e →
  ∃ st', undo (executeCommand c (h, e)) = Normal st'
       ∧ Document_getContent (Command_document c) (fst st') = Command_previousContent c
       ∧ ∀ d, d ≠ Command_document c →
              Document_getContent d (fst st') = Document_getContent d h.
Proof.
  intros Hr. rewrite undo_executeCommand by done.
  eexists. split; [done |]. cbn [fst]. rewrite undo_spec. split.
  - rewrite getContent_setContent. by rewrite decide_True.
  - intros d Hd. rewrite getContent_setContent.
    rewrite decide_False by done. by apply execute_other.
Qed.

(** X25.  The editor reads its own document only: a command constructed on
    another document changes nothing in what the editor's [getContent]
    returns, though it enters the history like any other. *)
Theorem command_on_another_document_is_invisible h e c :
  Command_document c ≠ document e →
  getContent (executeCommand c (h, e)) = getContent (h, e)
  ∧ currentPosition (snd (executeCommand c (h, e))) = currentPosition e + 1
  ∧ last (history (snd (executeCommand c (h, e)))) = Some c.
Proof.
  intros Hd. unfold getContent, executeCommand. cbn [fst snd document history currentPosition].
  split; [by apply execute_other |]. split; [done |]. apply last_snoc.
Qed.

End SnapshotFacts.

(** X24 at work: [addWorld] of the example script, constructed on the empty
    document and executed on ["Hello "]. *)
Lemma undo_writes_back_the_snapshot_witness :
  let h := {[ 0%nat := js "Hello " ]} in
  let e := {| history := [AddTextCommand 0 (js "Hello ") (js "")];
              currentPosition := 0; document := 0%nat |} in
  let c := AddTextCommand 0 (js "World!") (js "") in
  position_in_range e
  ∧ ∃ st', undo (executeCommand c (h, e)) = Normal st'
         ∧ Document_getContent (Command_document c) (fst st') = Command_previousContent c
         ∧ ∀ d, d ≠ Command_document c →
                Document_getContent d (fst st') = Document_getContent d h.
Proof.
  intros h e c.
  assert (position_in_range e) as Hr by (unfold position_in_range; simpl; lia).
  split; [exact Hr |].
  exact (undo_writes_back_the_snapshot h e c Hr).
Defined.

(** X25 at work: a command on document 1 given to the editor of document 0. *)
Lemma command_on_another_document_is_invisible_witness :
  let h := {[ 0%nat := js "Hello " ]} in
  let e := new_DocumentEditor (codeunit := ascii) 0 in
  let c := new_AddTextCommand 1 (js "World!") h in
  Command_document c ≠ document e
  ∧ getContent (executeCommand c (h, e)) = getContent (h, e)
  ∧ currentPosition (snd (executeCommand c (h, e))) = currentPosition e + 1
  ∧ last (history (snd (executeCommand c (h, e)))) = Some c.
Proof.
  intros h e c.
  assert (Command_document c ≠ document e) as Hd by discriminate.
  split; [exact Hd |].
  exact (command_on_another_document_is_invisible h e c Hd).
Defined.

(** * The typed event emitter *)

Section TypedEmitterFacts.

Context `{Countable K} {L : Type} `{EqDecision L}.
Variable inherited : K → bool.

Implicit Types listeners : gmap K (list L).
Implicit Types event : K.
Implicit Types listener : L.


(** X26.  [on] does not look for the listener in the array: for an event
    name that [Object.prototype] does not have, it returns, the listener is
    registered once more than before (twice after two calls), and the other
    listeners and the other events are as before. *)
Theorem on_registers_once_more listeners event listener :
  inherited event = false →
  ∃ listeners',
    TypedEventEmitter_on inherited event listener listeners = Normal listeners'
    ∧ registered listeners' event listener = S (registered listeners event listener)
    ∧ (∀ other, other ≠ listener →
         registered listeners' event other = registered listeners event other)
    ∧ (∀ event', event' ≠ event → listeners' !! event' = listeners !! event').
Proof.
  intros Hown. unfold TypedEventEmitter_on, get_listeners, registered. rewrite Hown.
  destruct (listeners !! event) as [a |] eqn:Ha;
    (eexists; split; [done |]); rewrite lookup_insert_eq; simpl.
  - split; [| split].
    + rewrite filter_app, length_app, filter_cons_True by done. simpl. lia.
    + intros other Hother.
      rewrite filter_app, length_app, filter_cons_False by done. simpl. lia.
    + intros event' Hevent. by rewrite lookup_insert_ne.
  - split; [| split].
    + by rewrite filter_cons_True.
    + intros other Hother. by rewrite filter_cons_False.
    + intros event' Hevent. by rewrite lookup_insert_ne.
Qed.



End TypedEmitterFacts.

(** X26 at work: the same listener registered twice for "user:login". *)
Lemma on_registers_once_more_witness :
  let inherited := λ event : list ascii, bool_decide (event = js "toString") in
  let listeners : gmap (list ascii) (list nat) := {[ js "user:login" := [7%nat] ]} in
  inherited (js "user:login") = false
  ∧ ∃ listeners',
      TypedEventEmitter_on inherited (js "user:login") 7%nat listeners = Normal listeners'
      ∧ registered listeners' (js "user:login") 7%nat
        = S (registered listeners (js "user:login") 7%nat)
      ∧ (∀ other, other ≠ 7%nat →
           registered listeners' (js "user:login") other
           = registered listeners (js "user:login") other)
      ∧ (∀ event', event' ≠ js "user:login" → listeners' !! event' = listeners !! event').
Proof.
  intros inherited listeners.
  assert (inherited (js "user:login") = false) as Hown by reflexivity.
  split; [exact Hown |].
  exact (on_registers_once_more inherited listeners (js "user:login") 7%nat Hown).
Defined.


